(** * bacta: CIGAR scoring and benchmark statistics

    A shallow embedding of [bacta/cigar_scorer.py] and
    [bacta/benchmark_utils.py], with the properties of the two modules
    stated and proved over it.

    Conventions of the embedding.
    - A Python [str] is a [list ascii]; an [ascii] is a code point below 256.
      On that range the regular-expression class [\d] is exactly [0-9] and
      [[A-Za-z]] is the ASCII letters, as in Python.
    - A Python [int] is a [Z] (lengths and counts that cannot be negative
      are [N]).
    - A raised exception is the [Raise] constructor of [result].
    - A [dict] is a [gmap], a [set] a [gset]. The thresholds of the counts
      mapping are integers (alignment scores), its counts are non-negative,
      and each inner dict has exactly the labels [REF] and [CONTAM]. *)

From Stdlib Require Import ZArith NArith List Ascii String Lia QArith Qcanon Lqa.
From stdpp Require Import base decidable option list gmap sets sorting strings.

Local Open Scope Z_scope.

(** ** Python exceptions and results *)

Inductive exn : Set :=
| KeyError
| ValueError
| OverflowError.

Inductive result (A : Type) : Type :=
| Ok (a : A)
| Raise (e : exn).
Arguments Ok {A} a.
Arguments Raise {A} e.

Definition rbind {A B} (r : result A) (k : A -> result B) : result B :=
  match r with
  | Ok a => k a
  | Raise e => Raise e
  end.

Notation "'try!' x := c1 'in' c2" := (rbind c1 (fun x => c2))
  (at level 10, x name, c1 at level 100, c2 at level 200).

(** [[f(x) for x in l]] where [f] may raise: the first exception escapes. *)
Fixpoint rmap {A B} (f : A -> result B) (l : list A) : result (list B) :=
  match l with
  | [] => Ok []
  | x :: l' => try! y := f x in try! ys := rmap f l' in Ok (y :: ys)
  end.

(** ** Characters *)

Definition str := list ascii.

Definition lit (s : string) : str := list_ascii_of_string s.

Definition code_point (c : ascii) : N := N_of_ascii c.

(** [\d] in a [str] pattern: a decimal digit. Below 256 these are [0-9]. *)
Definition is_digit (c : ascii) : bool :=
  ((48 <=? code_point c) && (code_point c <=? 57))%N.

(** [[A-Za-z]] *)
Definition is_ascii_letter (c : ascii) : bool :=
  (((65 <=? code_point c) && (code_point c <=? 90)) ||
   ((97 <=? code_point c) && (code_point c <=? 122)))%N.

(** [str.isalpha] on one character: Unicode category L. Below 256 these are
    the ASCII letters, U+00AA, U+00B5, U+00BA, U+00C0..U+00D6,
    U+00D8..U+00F6 and U+00F8..U+00FF. *)
Definition isalpha (c : ascii) : bool :=
  let n := code_point c in
  (is_ascii_letter c
   || (n =? 170) || (n =? 181) || (n =? 186)
   || ((192 <=? n) && (n <=? 214))
   || ((216 <=? n) && (n <=? 246))
   || ((248 <=? n) && (n <=? 255)))%N.

(** ** Regular-expression scanning

    [pattern.findall(s)] scans [s] from the left. At each position it tries
    the pattern; on success it records the match and resumes after it, on
    failure it moves one character to the right. Neither pattern of this
    program matches the empty string. A pattern is given by its matcher at
    the head of a string, returning the groups and the unconsumed rest. *)

Section Findall.
Context {T : Type}.
Variable matcher : str -> option (T * str).

Fixpoint findall_fuel (fuel : nat) (s : str) : list T :=
  match fuel with
  | O => []
  | S fuel' =>
      match s with
      | [] => []
      | _ :: s' =>
          match matcher s with
          | Some (tok, rest) => tok :: findall_fuel fuel' rest
          | None => findall_fuel fuel' s'
          end
      end
  end.

Definition findall (s : str) : list T := findall_fuel (length s) s.
End Findall.

(** Longest prefix of characters satisfying [p], and what follows it. *)
Fixpoint span (p : ascii -> bool) (s : str) : str * str :=
  match s with
  | [] => ([], [])
  | c :: s' =>
      if p c then let '(a, b) := span p s' in (c :: a, b) else ([], s)
  end.

(** *** CIGAR *)

Definition op_letters : str := lit "MIDNSHP=XB".

Definition is_op_letter (c : ascii) : bool :=
  existsb (Ascii.eqb c) op_letters.

(** [CIGAR_REGEX = re.compile("(\d+)([MIDNSHP=XB])")] tried at the head of
    [s]. [\d+] is greedy: it takes the whole run of digits. Giving a digit
    back cannot help, since the next character would then be a digit and
    not an operator letter, so the attempt succeeds exactly when the whole
    run is non-empty and an operator letter follows it
    (see [CIGAR_REGEX_match_spec]). *)
Definition CIGAR_REGEX (s : str) : option ((str * ascii) * str) :=
  match span is_digit s with
  | ((_ :: _) as x, y :: rest) =>
      if is_op_letter y then Some ((x, y), rest) else None
  | _ => None
  end.

(** [dict([y, x] for x, y in enumerate("MIDNSHP=XB"))], looked up. *)
Fixpoint index_of (c : ascii) (l : str) (i : Z) : option Z :=
  match l with
  | [] => None
  | d :: l' => if Ascii.eqb c d then Some i else index_of c l' (i + 1)
  end.

Definition CIGAR2CODE (y : ascii) : result Z :=
  match index_of y op_letters 0 with
  | Some i => Ok i
  | None => Raise KeyError
  end.

Definition digit_value (c : ascii) : Z := Z.of_N (code_point c) - 48.

(** [sys.int_info.default_max_str_digits]: the most digits [int] converts
    (CPython 3.11 and later, default setting). Every digit character
    counts, leading zeros too. *)
Definition int_max_str_digits : N := 4300.

(** [int(x)] for a string of decimal digits; above the digit limit it
    raises [ValueError]. (Signs, blanks and underscores, which [int] also
    accepts, never reach it here: [x] is a [\d+] group.) *)
Definition int (x : str) : result Z :=
  match x with
  | [] => Raise ValueError
  | _ =>
      if forallb is_digit x
      then if (int_max_str_digits <? N.of_nat (length x))%N
           then Raise ValueError
           else Ok (fold_left (fun acc c => 10 * acc + digit_value c) x 0)
      else Raise ValueError
  end.

(** ** CigarScorer *)

Inductive log_record : Set :=
| Warning (code : Z).

(** The instance state: the set [self.cig_warned], and the records handed
    to [self.logger.warn], oldest first. *)
Record CigarScorer : Type := mkCigarScorer {
  cig_warned : gset Z;
  logged : list log_record
}.

(** [__init__]: [self.cig_warned = set()], nothing logged yet. *)
Definition init : CigarScorer :=
  {| cig_warned := ∅; logged := [] |}.

Definition _cigar_score (code : Z) : option (Z -> Z) :=
  match code with
  | 0 => Some (fun x => x)
  | 1 => Some (fun x => -6 - x)
  | 2 => Some (fun x => -6 - x)
  | 3 => Some (fun x => 0)
  | 4 => Some (fun x => 0)
  | 5 => Some (fun x => 0)
  | 6 => Some (fun x => 0)
  | 7 => Some (fun x => x)
  | 8 => Some (fun x => x * -1)
  | 9 => Some (fun x => 0)
  | _ => None
  end.

Definition cigarstring_to_tuples (cigar : str) : result (list (Z * Z)) :=
  let parts := findall CIGAR_REGEX cigar in
  rmap (fun '(x, y) =>
          try! code := CIGAR2CODE y in try! n := int x in Ok (code, n)) parts.

(** One iteration of the loop of [score_cigartuples]: the [try] adds the
    table's contribution; the [except KeyError] warns once per code. *)
Definition score_step (st : CigarScorer * Z) (c : Z * Z) : CigarScorer * Z :=
  let '(self, score) := st in
  match _cigar_score (fst c) with
  | Some f => (self, score + f (snd c))
  | None =>
      if decide (fst c ∈ cig_warned self)
      then (self, score)
      else ({| cig_warned := {[ fst c ]} ∪ cig_warned self;
               logged := logged self ++ [Warning (fst c)] |}, score)
  end.

Definition score_cigartuples (self : CigarScorer) (ctups : list (Z * Z))
  : CigarScorer * Z :=
  fold_left score_step ctups (self, 0).

Definition score_cigarstring (self : CigarScorer) (cigar : str)
  : result (CigarScorer * Z) :=
  try! cigartups := cigarstring_to_tuples cigar in
  Ok (score_cigartuples self cigartups).

(** [MD_REGEX = re.compile(r"([A-Za-z]+|\^[A-Za-z])")] tried at the head of
    [s]: the first alternative is a greedy run of letters, the second a
    caret and one letter. *)
Definition MD_REGEX (s : str) : option (str * str) :=
  match span is_ascii_letter s with
  | ((_ :: _) as x, rest) => Some (x, rest)
  | _ =>
      match s with
      | c :: l :: rest =>
          if Ascii.eqb c "^"%char && is_ascii_letter l
          then Some ([c; l], rest) else None
      | _ => None
      end
  end.

Definition md_mismatches (md_tag : str) : Z :=
  fold_left
    (fun p x =>
       match x with
       | x0 :: _ => if isalpha x0 then p + Z.of_nat (length x) else p
       | [] => p
       end)
    (findall MD_REGEX md_tag) 0.

(** * Benchmark statistics ([benchmark_utils.py]) *)

(** ** Floating-point values

    A [float64] is a real number or one of the IEEE specials. Finite
    arithmetic is exact (rationals): rounding to 53 bits is outside the
    model. Division by zero follows numpy, which returns [nan] or an
    infinity where plain Python would raise. *)

Inductive float64 : Type :=
| Fin (q : Qc)
| PInf
| NInf
| NaN.

Definition Qc_sgn (q : Qc) : Z := Z.sgn (Qnum (this q)).

Definition of_Z (z : Z) : float64 := Fin (Q2Qc (inject_Z z)).
Definition of_N (n : N) : float64 := of_Z (Z.of_N n).

Definition fneg (a : float64) : float64 :=
  match a with
  | Fin x => Fin (- x)%Qc
  | PInf => NInf
  | NInf => PInf
  | NaN => NaN
  end.

Definition fadd (a b : float64) : float64 :=
  match a, b with
  | NaN, _ | _, NaN => NaN
  | Fin x, Fin y => Fin (x + y)%Qc
  | PInf, NInf | NInf, PInf => NaN
  | PInf, _ | _, PInf => PInf
  | NInf, _ | _, NInf => NInf
  end.

Definition fsub (a b : float64) : float64 := fadd a (fneg b).

(** An infinity with the sign of [s], or [nan] when [s] is zero. *)
Definition inf_of_sign (s : Z) : float64 :=
  match s with
  | Z0 => NaN
  | Zpos _ => PInf
  | Zneg _ => NInf
  end.

Definition fsign (a : float64) : Z :=
  match a with
  | Fin x => Qc_sgn x
  | PInf => 1
  | NInf => -1
  | NaN => 0
  end.

Definition fmul (a b : float64) : float64 :=
  match a, b with
  | NaN, _ | _, NaN => NaN
  | Fin x, Fin y => Fin (x * y)%Qc
  | _, _ => inf_of_sign (fsign a * fsign b)
  end.

Definition fdiv (a b : float64) : float64 :=
  match a, b with
  | NaN, _ | _, NaN => NaN
  | Fin x, Fin y =>
      if Qc_sgn y =? 0 then inf_of_sign (Qc_sgn x) else Fin (x / y)%Qc
  | Fin _, _ => Fin 0%Qc
  | _, Fin y => inf_of_sign (fsign a * (if Qc_sgn y <? 0 then -1 else 1))
  | _, _ => NaN
  end.

(** The largest finite double, [(2^53 - 1) * 2^971]. *)
Definition DBL_MAX : Qc := Q2Qc (inject_Z ((2 ^ 53 - 1) * 2 ^ 971)).

(** [np.nan_to_num]: [nan] becomes 0, an infinity the largest finite
    double of its sign. *)
Definition nan_to_num (a : float64) : float64 :=
  match a with
  | Fin x => Fin x
  | PInf => Fin DBL_MAX
  | NInf => Fin (- DBL_MAX)%Qc
  | NaN => Fin 0%Qc
  end.

Definition notna (a : float64) : bool :=
  match a with
  | NaN => false
  | _ => true
  end.

(** Python's [sum]: left to right, from 0. *)
Definition fsum (l : list float64) : float64 :=
  fold_left fadd l (Fin 0%Qc).

(** ** The text table and its numbers

    [write_table] prints every count with ["{:.3g}"] and every threshold
    with ["{:g}"], and pandas reads the numbers back from that text. What
    survives of a number is its value as a double, rounded to 3 (or 6)
    significant decimal digits, ties to even. *)

(** The smallest power of ten [u] with [n < bound * u]. *)
Fixpoint scale_fuel (fuel : nat) (bound n u : N) : N :=
  match fuel with
  | O => u
  | S fuel' =>
      if (n <? bound * u)%N then u else scale_fuel fuel' bound n (10 * u)%N
  end.

(** [n] rounded to a multiple of [u], ties to the even multiple. *)
Definition round_half_even (n u : N) : N :=
  let q := (n / u)%N in
  let r := (n mod u)%N in
  if (2 * r <? u)%N then (q * u)%N
  else if (u <? 2 * r)%N then ((q + 1) * u)%N
  else if N.even q then (q * u)%N else ((q + 1) * u)%N.

Definition round_sig (p : N) (n : N) : N :=
  round_half_even n (scale_fuel (N.to_nat (N.size n)) (10 ^ p)%N n 1%N).

(** [n] rounded to three, and [t] to six, significant decimal digits. *)
Definition round_3g (c : N) : N := round_sig 3 c.
Definition round_g (t : Z) : Z := Z.sgn t * Z.of_N (round_sig 6 (Z.abs_N t)).

(** [float(n)], which the float formats apply to an [int] first: [n]
    itself below [2^53], else [n] rounded to 53 significant bits, ties to
    even; [OverflowError] when the result is no double. The value is given
    as the integer it is. *)
Definition float_of_int (n : N) : result N :=
  let f := if (n <? 2 ^ 53)%N then n
           else round_half_even n (2 ^ (N.size n - 53))%N in
  if (f <? 2 ^ 1024)%N then Ok f else Raise OverflowError.

(** The number pandas reads from ["{:.3g}".format(c)]. *)
Definition fmt_3g (c : N) : result N :=
  try! f := float_of_int c in Ok (round_3g f).

(** The number pandas reads from ["{:g}".format(t)]. *)
Definition fmt_g (t : Z) : result Z :=
  try! f := float_of_int (Z.abs_N t) in Ok (Z.sgn t * Z.of_N (round_sig 6 f)).

(** ** Input and data frame *)

(** [counts[t]]: the per-threshold record with the labels [REF] and
    [CONTAM]. *)
Record counts_rec : Set := mkCounts {
  REF : N;
  CONTAM : N
}.

(** The data frame of [write_table], column by column. *)
Record DataFrame : Type := mkDataFrame {
  df_Threshold : list Z;
  df_CONTAM : list N;
  df_REF : list N;
  df_TP : list N;
  df_FP : list N;
  df_Sensitivity : list float64;
  df_Fallout : list float64;       (* the column "1-Specificity" *)
  df_Precision : list float64;
  df_F1 : list float64;
  df_F2 : list float64
}.

(** The file handle [fh]: what [to_csv] wrote to it, and whether it has
    been closed. *)
Record file : Type := mkFile {
  written : list DataFrame;
  closed : bool
}.

Definition Nsum (l : list N) : N := fold_left N.add l 0%N.

(** [for x in l: t += x; cum.append(t)], starting from [t]. *)
Fixpoint running (t : N) (l : list N) : list N :=
  match l with
  | [] => []
  | x :: l' => (t + x)%N :: running (t + x)%N l'
  end.

(** [sorted(counts.keys())] *)
Definition sorted_keys (counts : gmap Z counts_rec) : list Z :=
  merge_sort Z.le (map fst (map_to_list counts)).

Definition getitem (counts : gmap Z counts_rec) (t : Z) : result counts_rec :=
  match counts !! t with
  | Some c => Ok c
  | None => Raise KeyError
  end.

(** The statistics that [write_table] adds to the frame read back from the
    text table (its lines from [total_ref = ...] to [df['F2'] = ...]). *)
Definition calculate_stats (Threshold : list Z) (CONTAMc REFc : list N)
  : DataFrame :=
  let total_ref := Nsum REFc in
  let total_contam := Nsum CONTAMc in
  let cum_ref := rev (running 0%N (rev REFc)) in
  let cum_contam := rev (running 0%N (rev CONTAMc)) in
  let TP := cum_contam in
  let FP := cum_ref in
  let Sensitivity :=
    map (fun tp => fdiv (of_N tp) (of_N total_contam)) TP in
  let Fallout :=
    map (fun fp => fdiv (of_N fp) (of_N total_ref)) FP in
  let Precision :=
    zip_with (fun tp fp => fdiv (of_N tp) (of_N (tp + fp))) TP FP in
  let F1 :=
    zip_with (fun p s => fdiv (fmul (fmul (of_Z 2) p) s) (fadd p s))
             Precision Sensitivity in
  let F2 :=
    zip_with (fun p s => fdiv (fmul (fmul (of_Z (1 + 2)) p) s)
                              (fadd (fmul (of_Z 2) p) s))
             Precision Sensitivity in
  {| df_Threshold := Threshold; df_CONTAM := CONTAMc;
     df_REF := REFc; df_TP := TP; df_FP := FP;
     df_Sensitivity := Sensitivity; df_Fallout := Fallout;
     df_Precision := Precision; df_F1 := F1; df_F2 := F2 |}.

(** One line of the text table as pandas reads it: the threshold, then the
    counts in the order of [sorted(counts[t])], that is [CONTAM], [REF]. *)
Definition table_line (counts : gmap Z counts_rec) (t : Z)
  : result (Z * (N * N)) :=
  try! threshold := fmt_g t in
  try! c := getitem counts t in
  try! contam := fmt_3g (CONTAM c) in
  try! ref := fmt_3g (REF c) in
  Ok (threshold, (contam, ref)).

Definition write_table (counts : gmap Z counts_rec) (fh : file)
  : result DataFrame * file :=
  match map fst (map_to_list counts) with
  | [] => (Raise ValueError, fh)          (* k, *_ = counts.keys() *)
  | k :: _ =>
      match
        try! _ := getitem counts k in      (* the header, from counts[k] *)
        rmap (table_line counts) (sorted_keys counts)
      with
      | Raise e => (Raise e, fh)
      | Ok table =>
          let df := calculate_stats (map fst table)
                                    (map (fun r => fst (snd r)) table)
                                    (map (fun r => snd (snd r)) table) in
          if closed fh then (Raise ValueError, fh)   (* to_csv on a closed file *)
          else (Ok df, {| written := written fh ++ [df]; closed := true |})
      end
  end.

Definition calculate_fbeta_score (precision recall beta : float64) : float64 :=
  let beta := fmul beta beta in
  fdiv (fmul (fmul (fadd (of_Z 1) beta) precision) recall)
       (fadd (fmul beta precision) recall).

(** [df.notna().values.any(axis=1)]: a row is valid when one of its cells
    is not NA. The integer columns are never NA. *)
Definition valid_rows (df : DataFrame) : list bool :=
  let ints {A} (c : list A) := map (fun _ => true) c in
  let floats (c : list float64) := map notna c in
  fold_right (zip_with orb) (ints (df_Threshold df))
    [ints (df_CONTAM df); ints (df_REF df); ints (df_TP df); ints (df_FP df);
     floats (df_Sensitivity df); floats (df_Fallout df);
     floats (df_Precision df); floats (df_F1 df); floats (df_F2 df)].

(** [numpy.argmax] of a boolean array: the first [True], or 0. *)
Fixpoint argmax (l : list bool) : nat :=
  match l with
  | [] => O
  | true :: _ => O
  | false :: l' => if existsb id l' then S (argmax l') else O
  end.

(** pandas' [find_valid_index(how="last")]. *)
Definition last_valid_index (df : DataFrame) : option nat :=
  let is_valid := valid_rows df in
  match is_valid with
  | [] => None
  | _ =>
      let idxpos := (length is_valid - 1 - argmax (rev is_valid))%nat in
      match is_valid !! idxpos with
      | Some true => Some idxpos
      | _ => None
      end
  end.

(** [np.diff(a)]: [a[1:] - a[:-1]]. *)
Definition diff (a : list float64) : list float64 :=
  zip_with fsub (tl a) a.

Inductive info_record : Type :=
| AveragePrecision (p_a : float64).

Definition calculate_average_precision (df : DataFrame) (logger : list info_record)
  : result float64 * list info_record :=
  match
    match last_valid_index df with
    | Some i =>
        match df_Sensitivity df !! i with
        | Some v => Ok v
        | None => Raise KeyError
        end
    | None => Raise KeyError
    end
  with
  | Raise e => (Raise e, logger)
  | Ok lowest_sens =>
      let sdiff := lowest_sens :: diff (rev (df_Sensitivity df)) in
      let p_a := fsum (zip_with fmul (map nan_to_num (rev (df_Precision df))) sdiff) in
      (Ok p_a, logger ++ [AveragePrecision p_a])
  end.

(** [write_table] into a fresh file, then [calculate_average_precision]. *)
Definition average_precision_of (counts : gmap Z counts_rec) : result float64 :=
  match fst (write_table counts {| written := []; closed := false |}) with
  | Ok df => fst (calculate_average_precision df [])
  | Raise e => Raise e
  end.

Definition ex_counts : gmap Z counts_rec :=
  <[0 := mkCounts 10 5]> (<[1 := mkCounts 2 8]> ∅).

Definition fresh_file : file := {| written := []; closed := false |}.

(** * The other functions of the two modules *)

(** ** [CigarScorer.get_clipped_offset] and [get_aligned_length] *)

Definition get_clipped_offset (ctups : list (Z * Z)) : Z * Z :=
  match ctups with
  | [] => (0, 0)                                   (* len(ctups) < 1 *)
  | first :: _ =>
      let s_off := if fst first =? 4 then snd first else 0 in
      let e_off :=
        if fst (List.last ctups first) =? 4          (* ctups[-1] *)
        then snd (List.last ctups first) else 0 in
      (s_off, e_off)
  end.

Definition get_aligned_length (ctups : list (Z * Z)) : Z :=
  fold_left
    (fun i c =>
       if (fst c =? 0) || ((2 <=? fst c) && (fst c <=? 3))
          || ((7 <=? fst c) && (fst c <=? 8))
       then i + snd c else i)
    ctups 0.

(** ** [report_precision_recall] *)

(** One line handed to [logger.info]:
    ["At threshold={} precision={:g}, recall={:g}"]. *)
Inductive report_record : Type :=
| AtThreshold (threshold : Z) (precision recall : float64).

(** [for row in df.itertuples()]: one record per row, from the columns
    [Threshold], [Precision] and [Sensitivity]; the records are appended to
    what [logger] already holds. *)
Definition report_precision_recall (df : DataFrame) (logger : list report_record)
  : list report_record :=
  logger ++
  zip_with (fun t ps => AtThreshold t (fst ps) (snd ps))
           (df_Threshold df) (zip (df_Precision df) (df_Sensitivity df)).

(** ** [contigs_from_fasta]

    The file system is a function from a path to the lines of the file
    there, [None] where [os.path.exists] is false. (A path that exists and
    cannot be opened or decoded is outside the model.) *)

Inductive exit_message : Type :=
| IndexNotFound (fai : str)            (* "could not find fasta index" *)
| ContigTwice (fai : str) (c : str).   (* "Contig ... found more than once" *)

Inductive outcome (A : Type) : Type :=
| Returns (a : A)
| SystemExit (message : exit_message)   (* sys.exit(message) *)
| IndexError.                           (* [][0] *)
Arguments Returns {A} a.
Arguments SystemExit {A} message.
Arguments IndexError {A}.

(** [str.isspace] on one character, below 256. *)
Definition is_space (c : ascii) : bool :=
  let n := code_point c in
  (((9 <=? n) && (n <=? 13)) || ((28 <=? n) && (n <=? 32))
   || (n =? 133) || (n =? 160))%N.

Fixpoint lstrip (s : str) : str :=
  match s with
  | [] => []
  | c :: s' => if is_space c then lstrip s' else s
  end.

(** [line.split()[0]]: the first run of characters that are not blank;
    [None] when there is none and the index raises. *)
Definition first_field (line : str) : option str :=
  match span (fun c => negb (is_space c)) (lstrip line) with
  | ((_ :: _) as c, _) => Some c
  | _ => None
  end.

(** The loop [for line in fh], with the set [contigs] so far. *)
Fixpoint read_contigs (fai : str) (lines : list str) (contigs : gset str)
  : outcome (gset str) :=
  match lines with
  | [] => Returns contigs
  | line :: lines' =>
      match first_field line with
      | None => IndexError
      | Some c =>
          if decide (c ∈ contigs) then SystemExit (ContigTwice fai c)
          else read_contigs fai lines' ({[ c ]} ∪ contigs)
      end
  end.

Definition contigs_from_fasta (fs : str -> option (list str)) (fasta : str)
  : outcome (gset str) :=
  let fai := fasta ++ lit ".fai" in
  match fs fai with
  | None => SystemExit (IndexNotFound fai)
  | Some lines => read_contigs fai lines ∅
  end.

(** * Notions used to state the properties

    These follow the wording of the specification; they are compared with
    the functions above in the theorems below. *)

(** ** The CIGAR grammar *)

Definition digits (ds : str) : Prop := ds <> [] /\ forallb is_digit ds = true.

(** A string that decomposes completely into tokens: one or more digits and
    then one operator letter. *)
Inductive token_stream : str -> Prop :=
| ts_nil : token_stream []
| ts_token ds y rest :
    digits ds -> is_op_letter y = true -> token_stream rest ->
    token_stream (ds ++ y :: rest).

(** The same, decided in one pass; [in_digits] tells whether a digit run is
    open. *)
Fixpoint tokens_only (in_digits : bool) (s : str) : bool :=
  match s with
  | [] => negb in_digits
  | c :: s' =>
      if is_digit c then tokens_only true s'
      else if is_op_letter c then in_digits && tokens_only false s'
      else false
  end.


(** ** Re-encoding of operations *)

Definition digit_char (n : N) : ascii := ascii_of_N (48 + n).

Fixpoint decimal_fuel (fuel : nat) (n : N) : str :=
  match fuel with
  | O => []
  | S fuel' =>
      if (n <? 10)%N then [digit_char n]
      else decimal_fuel fuel' (n / 10)%N ++ [digit_char (n mod 10)%N]
  end.

(** The decimal numeral of [n], without padding. *)
Definition decimal (n : N) : str := decimal_fuel (S (N.to_nat (N.log2 n))) n.

(** The letter at index [code] of ["MIDNSHP=XB"]. *)
Definition op_letter (code : Z) : ascii :=
  nth (Z.to_nat code) op_letters "?"%char.

(** Length, then letter, for each operation in order. *)
Definition encode (tups : list (Z * Z)) : str :=
  concat (map (fun '(code, n) => decimal (Z.to_N n) ++ [op_letter code]) tups).

(** ** Operation kinds and the score table *)

Inductive CigarOperation : Set :=
| Match | Insertion | Deletion | RefSkip | SoftClip
| HardClip | Pad | Equal | Diff | Back.

(** The position of the kind's letter in ["MIDNSHP=XB"]. *)
Definition kind_code (k : CigarOperation) : Z :=
  match k with
  | Match => 0 | Insertion => 1 | Deletion => 2 | RefSkip => 3
  | SoftClip => 4 | HardClip => 5 | Pad => 6 | Equal => 7
  | Diff => 8 | Back => 9
  end.

Definition contribution (k : CigarOperation) (L : Z) : Z :=
  match k with
  | Match | Equal => L
  | Insertion | Deletion => - (6 + L)
  | Diff => - L
  | RefSkip | SoftClip | HardClip | Pad | Back => 0
  end.

Definition Zsum (l : list Z) : Z := fold_right Z.add 0 l.

Definition known_code (code : Z) : bool := (0 <=? code) && (code <=? 9).

(** What one tuple adds to the score when unknown codes count for 0. *)
Definition tuple_score (c : Z * Z) : Z :=
  match _cigar_score (fst c) with
  | Some f => f (snd c)
  | None => 0
  end.

(** The life of one instance: [score_cigartuples] called on each element of
    [calls] in turn; the scores returned, oldest first, with the final
    state. *)
Definition lifetime (self : CigarScorer) (calls : list (list (Z * Z)))
  : CigarScorer * list Z :=
  fold_left
    (fun st ctups =>
       let '(self', score) := score_cigartuples (fst st) ctups in
       (self', snd st ++ [score]))
    calls (self, []).

(** How many warnings about [code] were logged. *)
Definition warnings_for (code : Z) (self : CigarScorer) : nat :=
  length (List.filter (fun r => match r with Warning c => c =? code end)
                      (logged self)).

(** ** MD tokens *)

Definition letter_run (x : str) : Prop :=
  x <> [] /\ forallb is_ascii_letter x = true.

Definition caret_token (x : str) : Prop :=
  exists l, x = ["^"%char; l] /\ is_ascii_letter l = true.

Definition starts_alpha (x : str) : bool :=
  match x with
  | c :: _ => isalpha c
  | [] => false
  end.

(** Letters of [s] that do not directly follow a caret; [after_caret] tells
    whether the previous character was one. *)
Fixpoint unmarked_letters (after_caret : bool) (s : str) : Z :=
  match s with
  | [] => 0
  | c :: s' =>
      (if is_ascii_letter c && negb after_caret then 1 else 0)
      + unmarked_letters (Ascii.eqb c "^"%char) s'
  end.

(** ** Sums over thresholds *)

(** The sum of [f] over the entries of [counts] whose threshold is at
    least [T]. *)
Definition sum_from (counts : gmap Z counts_rec) (f : counts_rec -> N) (T : Z) : N :=
  Nsum (map (fun kv => f (snd kv))
            (List.filter (fun kv => T <=? fst kv) (map_to_list counts))).

(** ** Average precision as a sum of precision times Delta *)

(** Delta at position [i] (from 0) of the reversed order: the seed first,
    then the difference to the previous sensitivity. *)
Definition Delta (seed : float64) (s : list float64) (i : nat) : float64 :=
  match i with
  | O => seed
  | S j => fsub (nth i s NaN) (nth j s NaN)
  end.

Definition precision_Delta_sum (seed : float64) (df : DataFrame) : float64 :=
  let p := rev (df_Precision df) in
  let s := rev (df_Sensitivity df) in
  fsum (imap (fun i p_i => fmul (nan_to_num p_i) (Delta seed s i)) p).

(** Index of the first least element. *)
Fixpoint argmin (l : list Z) : nat :=
  match l with
  | [] => O
  | x :: l' =>
      match l' with
      | [] => O
      | _ => if x <=? nth (argmin l') l' 0 then O else S (argmin l')
      end
  end.

(** The sensitivity of the row with the lowest threshold. *)
Definition sensitivity_at_lowest_threshold (df : DataFrame) : float64 :=
  nth (argmin (df_Threshold df)) (df_Sensitivity df) NaN.

(** The sensitivity of the last row. *)
Definition sensitivity_of_last_row (df : DataFrame) : float64 :=
  List.last (df_Sensitivity df) NaN.

(** All columns have the same number of rows, as in any data frame. *)
Definition rectangular (df : DataFrame) : Prop :=
  let n := length (df_Threshold df) in
  length (df_CONTAM df) = n /\ length (df_REF df) = n /\
  length (df_TP df) = n /\ length (df_FP df) = n /\
  length (df_Sensitivity df) = n /\ length (df_Fallout df) = n /\
  length (df_Precision df) = n /\ length (df_F1 df) = n /\
  length (df_F2 df) = n.

(** Whether [code] is the code of some tuple of [ctups]. *)
Definition occurs (code : Z) (ctups : list (Z * Z)) : bool :=
  existsb (fun c => fst c =? code) ctups.

(** The instance has logged one warning for each code of its set, and none
    for any other code. *)
Definition warned_once (self : CigarScorer) : Prop :=
  forall code,
    warnings_for code self = if decide (code ∈ cig_warned self) then 1%nat else 0%nat.

(** What a token adds to the count of [md_mismatches]. *)
Definition token_weight (x : str) : Z :=
  if starts_alpha x then Z.of_nat (length x) else 0.

(** ** The columns of the text table *)

Definition counts_at (counts : gmap Z counts_rec) (t : Z) : counts_rec :=
  match counts !! t with
  | Some c => c
  | None => mkCounts 0 0
  end.

Definition contam_col (counts : gmap Z counts_rec) : list N :=
  map (fun t => round_3g (CONTAM (counts_at counts t))) (sorted_keys counts).

Definition ref_col (counts : gmap Z counts_rec) : list N :=
  map (fun t => round_3g (REF (counts_at counts t))) (sorted_keys counts).

(** The frame that [write_table] returns for a non-empty [counts]. *)
Definition frame_of (counts : gmap Z counts_rec) : DataFrame :=
  calculate_stats (map round_g (sorted_keys counts))
                  (contam_col counts) (ref_col counts).

(** A mapping with a count of four significant digits. *)
Definition big_counts : gmap Z counts_rec := <[0 := mkCounts 1 1234]> ∅.

(** ** Auxiliary functions of the proofs *)

(** Equality test on [float64], for evaluating examples. *)
Definition feqb (a b : float64) : bool :=
  match a, b with
  | Fin x, Fin y => Qeq_bool x y
  | PInf, PInf | NInf, NInf | NaN, NaN => true
  | _, _ => false
  end.

Fixpoint flist_eqb (l1 l2 : list float64) : bool :=
  match l1, l2 with
  | [], [] => true
  | a :: l1', b :: l2' => feqb a b && flist_eqb l1' l2'
  | _, _ => false
  end.

(** The rational [a/b] as a float. *)
Definition frac (a : Z) (b : positive) : float64 := Fin (Q2Qc (a # b)).

(** The sums of the suffixes of [l]: what the two reversed cumulation loops
    of [write_table] leave in [cum_ref] and [cum_contam]. *)
Fixpoint suffix_sums (l : list N) : list N :=
  match l with
  | [] => []
  | x :: l' => Nsum (x :: l') :: suffix_sums l'
  end.

Definition sens (total tp : N) : float64 := fdiv (of_N tp) (of_N total).
Definition prec (tp fp : N) : float64 := fdiv (of_N tp) (of_N (tp + fp)).

(** The terms of the average-precision sum, walking the rows from the
    highest threshold down with the running sums [tc] and [tr]; [prev] is
    the sensitivity of the row before. *)
Fixpoint ap_terms (total : N) (prev : float64) (tc tr : N) (rows : list (N * N))
  : list float64 :=
  match rows with
  | [] => []
  | (c, r) :: rows' =>
      fmul (nan_to_num (prec (tc + c) (tr + r))) (fsub (sens total (tc + c)) prev)
      :: ap_terms total (sens total (tc + c)) (tc + c)%N (tr + r)%N rows'
  end.

(** ** Notions for the other functions *)

(** The length of [c] when it is a soft clip (code 4), else 0. *)
Definition soft_clip (c : Z * Z) : Z := if fst c =? 4 then snd c else 0.

(** The kinds that consume a reference base: [M], [D], [N], [=], [X]. *)
Definition consumes_reference (k : CigarOperation) : bool :=
  match k with
  | Match | Deletion | RefSkip | Equal | Diff => true
  | Insertion | SoftClip | HardClip | Pad | Back => false
  end.

(** What one tuple adds to the aligned length. *)
Definition reference_span (c : Z * Z) : Z :=
  if (fst c =? 0) || ((2 <=? fst c) && (fst c <=? 3))
     || ((7 <=? fst c) && (fst c <=? 8))
  then snd c else 0.

(** The number of ASCII letters of [s]. *)
Definition letters (s : str) : Z :=
  Z.of_nat (length (List.filter is_ascii_letter s)).

(** The first fields of the lines that have one. *)
Definition first_fields (lines : list str) : list str :=
  omap first_field lines.

(** Whether the float is a number from 0 to 1. *)
Definition in_unit_interval (a : float64) : Prop :=
  match a with
  | Fin q => (0 <= q)%Qc /\ (q <= 1)%Qc
  | _ => False
  end.

(** The count [n] as a rational. *)
Definition Qc_of_N (n : N) : Qc := Q2Qc (inject_Z (Z.of_N n)).

(** An empty frame. *)
Definition empty_frame : DataFrame :=
  {| df_Threshold := []; df_CONTAM := []; df_REF := []; df_TP := [];
     df_FP := []; df_Sensitivity := []; df_Fallout := [];
     df_Precision := []; df_F1 := []; df_F2 := [] |}.

(** A contig name: not empty, without blanks. *)
Definition contig_name (name : str) : Prop :=
  name <> [] /\ forallb (fun c => negb (is_space c)) name = true.

(** A line of an index: the name, a blank, and the other columns. *)
Definition index_line (entry : str * (ascii * str)) : str :=
  fst entry ++ fst (snd entry) :: snd (snd entry).

(** A file system with one index of two contigs. *)
Definition ex_fs (path : str) : option (list str) :=
  if decide (path = lit "ref.fa.fai")
  then Some [lit "chr1	1000	6	60	61"; lit "chr2	500	1030	60	61"]
  else None.

(** ** Inputs within the limits of the interpreter *)

(** Whether every run of digits of [s] has at most [limit] digits; [run]
    is the length of the run that is open. *)
Fixpoint digit_runs_within (limit run : N) (s : str) : bool :=
  match s with
  | [] => true
  | c :: s' =>
      if is_digit c
      then (run + 1 <=? limit)%N && digit_runs_within limit (run + 1) s'
      else digit_runs_within limit 0 s'
  end.

(** No run of digits is longer than [int] converts. *)
Definition short_digit_runs (s : str) : Prop :=
  digit_runs_within int_max_str_digits 0 s = true.

(** The thresholds and counts are integers that a double holds exactly. *)
Definition representable (counts : gmap Z counts_rec) : Prop :=
  map_Forall
    (fun t c => Z.abs t < 2 ^ 53 /\ (REF c < 2 ^ 53)%N /\ (CONTAM c < 2 ^ 53)%N)
    counts.

(** ** Decoding in one pass *)

(** The kind that a letter stands for. *)
Definition letter_kind (c : ascii) : option CigarOperation :=
  if Ascii.eqb c "M" then Some Match
  else if Ascii.eqb c "I" then Some Insertion
  else if Ascii.eqb c "D" then Some Deletion
  else if Ascii.eqb c "N" then Some RefSkip
  else if Ascii.eqb c "S" then Some SoftClip
  else if Ascii.eqb c "H" then Some HardClip
  else if Ascii.eqb c "P" then Some Pad
  else if Ascii.eqb c "=" then Some Equal
  else if Ascii.eqb c "X" then Some Diff
  else if Ascii.eqb c "B" then Some Back
  else None.

(** The operations of a text, read character by character: [open] is the
    value of the digit run that is open, if one is. A letter of a kind
    closes the run and gives an operation when a run is open; any other
    character that is not a digit drops the run. *)
Fixpoint scan_operations (open : option Z) (s : str) : list (Z * Z) :=
  match s with
  | [] => []
  | c :: s' =>
      if is_digit c
      then scan_operations
             (Some (10 * (match open with Some v => v | None => 0 end)
                    + digit_value c)) s'
      else
        match letter_kind c, open with
        | Some k, Some v => (kind_code k, v) :: scan_operations None s'
        | _, _ => scan_operations None s'
        end
  end.

(** * Properties *)

Example ex_decode :
  cigarstring_to_tuples (lit "10S5M3S") = Ok [(4, 10); (0, 5); (4, 3)].
Proof. vm_compute. reflexivity. Qed.

Example ex_decimal : decimal 1203 = lit "1203".
Proof. vm_compute. reflexivity. Qed.

(** ** Scanning *)

Section FindallFacts.
Context {T : Type} (matcher : str -> option (T * str)).
Hypothesis progress :
  forall s tok rest, matcher s = Some (tok, rest) -> (length rest < length s)%nat.

Lemma findall_fuel_irrelevant f1 : forall f2 s,
  (length s <= f1)%nat -> (length s <= f2)%nat ->
  findall_fuel matcher f1 s = findall_fuel matcher f2 s.
Proof.
  induction f1 as [|f1 IH]; intros f2 s H1 H2.
  - destruct s; [|simpl in H1; lia]. destruct f2; reflexivity.
  - destruct s as [|c s]; [destruct f2; reflexivity|].
    destruct f2 as [|f2]; [simpl in H2; lia|].
    simpl. destruct (matcher (c :: s)) as [[tok rest]|] eqn:E.
    + apply progress in E. simpl in *. f_equal. apply IH; lia.
    + simpl in *. apply IH; lia.
Qed.

Lemma findall_match s tok rest :
  matcher s = Some (tok, rest) ->
  findall matcher s = tok :: findall matcher rest.
Proof.
  intros E. pose proof (progress _ _ _ E) as Hlt.
  unfold findall. destruct s as [|c s]; [simpl in Hlt; lia|].
  simpl. rewrite E. f_equal. simpl in Hlt.
  apply findall_fuel_irrelevant; lia.
Qed.

Lemma findall_skip c s :
  matcher (c :: s) = None ->
  findall matcher (c :: s) = findall matcher s.
Proof. intros E. unfold findall. simpl. rewrite E. reflexivity. Qed.
End FindallFacts.

Lemma span_spec p s a b :
  span p s = (a, b) ->
  s = a ++ b /\ forallb p a = true /\
  match b with [] => True | c :: _ => p c = false end.
Proof.
  revert a b. induction s as [|c s IH]; intros a b E; simpl in E.
  - inversion E. auto.
  - destruct (p c) eqn:Hc.
    + destruct (span p s) as [a' b'] eqn:E'. inversion E; subst.
      destruct (IH _ _ eq_refl) as (-> & Ha & Hb).
      simpl. rewrite Hc. auto.
    + inversion E; subst. simpl. rewrite Hc. auto.
Qed.

Lemma span_run p ds c rest :
  forallb p ds = true -> p c = false ->
  span p (ds ++ c :: rest) = (ds, c :: rest).
Proof.
  intros Hds Hc. induction ds as [|d ds IH]; simpl.
  - rewrite Hc. reflexivity.
  - simpl in Hds. apply andb_true_iff in Hds as [Hd Hds].
    rewrite Hd, (IH Hds). reflexivity.
Qed.

Lemma span_all p ds : forallb p ds = true -> span p ds = (ds, []).
Proof.
  induction ds as [|d ds IH]; simpl; [reflexivity|].
  intros H. apply andb_true_iff in H as [Hd Hds].
  rewrite Hd, (IH Hds). reflexivity.
Qed.

Lemma span_length p s a b :
  span p s = (a, b) -> length s = (length a + length b)%nat.
Proof.
  intros E. apply span_spec in E as (-> & _). apply length_app.
Qed.

Lemma op_letter_not_digit y : is_op_letter y = true -> is_digit y = false.
Proof.
  destruct y as [[] [] [] [] [] [] [] []]; vm_compute; congruence.
Qed.

Lemma op_letter_code y :
  is_op_letter y = true ->
  exists code, CIGAR2CODE y = Ok code /\ known_code code = true /\
               op_letter code = y.
Proof.
  destruct y as [[] [] [] [] [] [] [] []]; vm_compute; try congruence;
    intros _; eexists; repeat split.
Qed.

(** The matcher finds a token at the head exactly when one is there. *)
Lemma CIGAR_REGEX_match_spec s x y rest :
  CIGAR_REGEX s = Some ((x, y), rest) <->
  s = x ++ y :: rest /\ digits x /\ is_op_letter y = true.
Proof.
  unfold CIGAR_REGEX, digits. split.
  - destruct (span is_digit s) as [a b] eqn:E.
    apply span_spec in E as (-> & Ha & _).
    destruct a as [|d a]; [discriminate|]. destruct b as [|c b]; [discriminate|].
    destruct (is_op_letter c) eqn:Hc; [|discriminate].
    intros [= <- <- <-]. repeat split; auto; discriminate.
  - intros (-> & [Hne Hx] & Hy).
    rewrite (span_run _ _ _ _ Hx (op_letter_not_digit _ Hy)).
    destruct x; [congruence|]. rewrite Hy. reflexivity.
Qed.

Lemma CIGAR_REGEX_progress s tok rest :
  CIGAR_REGEX s = Some (tok, rest) -> (length rest < length s)%nat.
Proof.
  destruct tok as [x y]. intros E.
  apply CIGAR_REGEX_match_spec in E as (-> & _ & _).
  rewrite length_app. simpl. lia.
Qed.

Lemma MD_REGEX_progress s tok rest :
  MD_REGEX s = Some (tok, rest) -> (length rest < length s)%nat.
Proof.
  unfold MD_REGEX. destruct (span is_ascii_letter s) as [a b] eqn:E.
  pose proof (span_length _ _ _ _ E) as Hl.
  destruct a as [|d a].
  - destruct s as [|c [|l s]]; try discriminate.
    destruct (_ && _); [|discriminate]. intros [= <- <-]. simpl. lia.
  - intros [= <- <-]. simpl in Hl. lia.
Qed.

Section FindallInduction.
Context {T : Type} (matcher : str -> option (T * str)).
Hypothesis progress :
  forall s tok rest, matcher s = Some (tok, rest) -> (length rest < length s)%nat.

(** Induction along the scan: a match at the head, or one character
    skipped. *)
Lemma findall_ind (P : str -> list T -> Prop) :
  P [] [] ->
  (forall s tok rest, matcher s = Some (tok, rest) ->
     P rest (findall matcher rest) -> P s (tok :: findall matcher rest)) ->
  (forall c s, matcher (c :: s) = None ->
     P s (findall matcher s) -> P (c :: s) (findall matcher s)) ->
  forall s, P s (findall matcher s).
Proof.
  intros Hnil Hmatch Hskip s.
  remember (length s) as n eqn:Hn. revert s Hn.
  induction n as [n IH] using lt_wf_ind. intros s ->.
  destruct s as [|c s]; [exact Hnil|].
  destruct (matcher (c :: s)) as [[tok rest]|] eqn:E.
  - rewrite (findall_match _ progress _ _ _ E).
    apply Hmatch; [exact E|].
    apply (IH (length rest)); [apply (progress _ _ _ E)|reflexivity].
  - rewrite (findall_skip _ _ _ E).
    apply Hskip; [exact E|]. apply (IH (length s)); simpl; lia.
Qed.
End FindallInduction.

(** ** Decoding *)

Lemma rmap_app {A B} (f : A -> result B) l1 l2 a b :
  rmap f l1 = Ok a -> rmap f l2 = Ok b -> rmap f (l1 ++ l2) = Ok (a ++ b).
Proof.
  revert a. induction l1 as [|x l1 IH]; intros a; simpl.
  - intros [= <-]. auto.
  - destruct (f x) as [y|]; simpl; [|discriminate].
    destruct (rmap f l1) as [ys|]; simpl; [|discriminate].
    intros [= <-] Hb. rewrite (IH _ eq_refl Hb). reflexivity.
Qed.

Lemma int_digits x :
  digits x -> (N.of_nat (length x) <= int_max_str_digits)%N ->
  int x = Ok (fold_left (fun acc c => 10 * acc + digit_value c) x 0).
Proof.
  intros [Hne Hx] Hlen. unfold int. destruct x as [|a x]; [congruence|]. rewrite Hx.
  destruct (N.ltb_spec int_max_str_digits (N.of_nat (length (a :: x))));
    [lia|reflexivity].
Qed.

(** *** Digit runs within the limit *)

Lemma digit_runs_within_mono limit s : forall r r',
  (r' <= r)%N -> digit_runs_within limit r s = true ->
  digit_runs_within limit r' s = true.
Proof.
  induction s as [|c s IH]; intros r r' Hle H; [reflexivity|].
  cbn [digit_runs_within] in *. destruct (is_digit c); [|exact H].
  apply andb_true_iff in H as [H1 H2]. apply N.leb_le in H1.
  apply andb_true_iff. split; [apply N.leb_le; lia|].
  apply (IH (r + 1)%N); [lia|exact H2].
Qed.

Lemma digit_runs_within_run limit x : forall r rest,
  forallb is_digit x = true -> x <> [] ->
  digit_runs_within limit r (x ++ rest) = true ->
  (r + N.of_nat (length x) <= limit)%N /\
  digit_runs_within limit (r + N.of_nat (length x)) rest = true.
Proof.
  induction x as [|c x IH]; intros r rest Hx Hne H; [congruence|].
  cbn [forallb] in Hx. apply andb_true_iff in Hx as [Hc Hx].
  cbn [app digit_runs_within] in H. rewrite Hc in H.
  apply andb_true_iff in H as [H1 H2]. apply N.leb_le in H1.
  destruct x as [|c' x].
  - cbn [app] in H2. cbn [length]. change (N.of_nat 1) with 1%N. split; assumption.
  - destruct (IH (r + 1)%N rest Hx ltac:(discriminate) H2) as [Hl Hr].
    replace (r + N.of_nat (length (c :: c' :: x)))%N
      with (r + 1 + N.of_nat (length (c' :: x)))%N by (cbn [length]; lia).
    split; assumption.
Qed.

Lemma short_digit_runs_after x y rest :
  digits x -> is_digit y = false ->
  short_digit_runs (x ++ y :: rest) ->
  (N.of_nat (length x) <= int_max_str_digits)%N /\ short_digit_runs rest.
Proof.
  intros [Hne Hx] Hy H. unfold short_digit_runs in *.
  destruct (digit_runs_within_run _ x 0%N (y :: rest) Hx Hne H) as [Hl Hr].
  split; [exact Hl|]. cbn [digit_runs_within] in Hr.
  rewrite Hy in Hr. exact Hr.
Qed.

Lemma short_digit_runs_token x y rest :
  digits x -> is_op_letter y = true ->
  short_digit_runs (x ++ y :: rest) ->
  (N.of_nat (length x) <= int_max_str_digits)%N /\ short_digit_runs rest.
Proof.
  intros Hx Hy. apply short_digit_runs_after; [exact Hx|].
  apply op_letter_not_digit, Hy.
Qed.

Lemma short_digit_runs_tail c s :
  short_digit_runs (c :: s) -> short_digit_runs s.
Proof.
  unfold short_digit_runs. cbn [digit_runs_within].
  destruct (is_digit c); [|auto]. intros H.
  apply andb_true_iff in H as [_ H].
  apply (digit_runs_within_mono _ s (0 + 1)%N 0%N); [lia|exact H].
Qed.

Lemma findall_CIGAR_short_parts s :
  short_digit_runs s ->
  Forall (fun part => digits (fst part) /\
                      (N.of_nat (length (fst part)) <= int_max_str_digits)%N /\
                      is_op_letter (snd part) = true)
         (findall CIGAR_REGEX s).
Proof.
  apply (findall_ind CIGAR_REGEX CIGAR_REGEX_progress
           (fun s l => short_digit_runs s ->
                       Forall (fun part => digits (fst part) /\
                                 (N.of_nat (length (fst part)) <= int_max_str_digits)%N /\
                                 is_op_letter (snd part) = true) l)).
  - constructor.
  - intros s' [x y] rest E IH Hs.
    apply CIGAR_REGEX_match_spec in E as (-> & Hx & Hy).
    destruct (short_digit_runs_token x y rest Hx Hy Hs) as [Hl Hr].
    constructor; [cbn [fst snd]; auto|apply IH, Hr].
  - intros c s' _ IH Hs. apply IH. apply (short_digit_runs_tail c), Hs.
Qed.

Lemma findall_CIGAR_token x y rest :
  digits x -> is_op_letter y = true ->
  findall CIGAR_REGEX (x ++ y :: rest) = (x, y) :: findall CIGAR_REGEX rest.
Proof.
  intros Hx Hy. apply (findall_match _ CIGAR_REGEX_progress).
  apply CIGAR_REGEX_match_spec. auto.
Qed.

(** *** The one-pass decision of the grammar *)

Lemma tokens_only_run ds : forall b r,
  digits ds -> tokens_only b (ds ++ r) = tokens_only true r.
Proof.
  induction ds as [|d ds IH]; intros b r [Hne Hds]; [congruence|].
  simpl in Hds. apply andb_true_iff in Hds as [Hd Hds].
  simpl. rewrite Hd. destruct ds as [|d' ds]; [reflexivity|].
  apply IH. split; [discriminate|exact Hds].
Qed.

Lemma token_stream_tokens_only s :
  token_stream s -> tokens_only false s = true.
Proof.
  induction 1 as [|ds y rest Hds Hy _ IH]; [reflexivity|].
  rewrite tokens_only_run by assumption. simpl.
  rewrite (op_letter_not_digit _ Hy), Hy, IH. reflexivity.
Qed.

Lemma tokens_only_open s :
  tokens_only true s = true ->
  exists ds y rest, s = ds ++ y :: rest /\ forallb is_digit ds = true /\
                    is_op_letter y = true /\ tokens_only false rest = true.
Proof.
  induction s as [|c s IH]; simpl; [discriminate|].
  destruct (is_digit c) eqn:Hc.
  - intros H. destruct (IH H) as (ds & y & rest & -> & Hds & Hy & Hr).
    exists (c :: ds), y, rest. simpl. rewrite Hc. auto.
  - destruct (is_op_letter c) eqn:Ho; [|discriminate]. simpl. intros H.
    exists [], c, s. auto.
Qed.

Lemma tokens_only_token_stream s :
  tokens_only false s = true -> token_stream s.
Proof.
  remember (length s) as n eqn:Hn. revert s Hn.
  induction n as [n IH] using lt_wf_ind. intros s -> H.
  destruct s as [|c s]; [constructor|]. simpl in H.
  destruct (is_digit c) eqn:Hc.
  - destruct (tokens_only_open _ H) as (ds & y & rest & -> & Hds & Hy & Hr).
    change (token_stream ((c :: ds) ++ y :: rest)). constructor; auto.
    + split; [discriminate|]. simpl. rewrite Hc. exact Hds.
    + apply (IH (length rest)); auto. simpl. rewrite length_app. simpl. lia.
  - destruct (is_op_letter c); discriminate.
Qed.

Lemma token_stream_decide s : token_stream s <-> tokens_only false s = true.
Proof.
  split; [apply token_stream_tokens_only|apply tokens_only_token_stream].
Qed.

(** C1, as stated, fails: ["3M!"] does not decompose completely into tokens,
    yet [cigarstring_to_tuples] raises nothing and returns the decode of the
    part that matches. *)
Lemma decode_malformed_returns :
  ~ token_stream (lit "3M!") /\
  cigarstring_to_tuples (lit "3M!") = Ok [(0, 3)] /\
  ~ token_stream (lit "12M5") /\
  cigarstring_to_tuples (lit "12M5") = Ok [(0, 12)].
Proof.
  repeat split; try (vm_compute; reflexivity);
    rewrite token_stream_decide; vm_compute; discriminate.
Qed.

Lemma CIGAR_REGEX_nondigit c s : is_digit c = false -> CIGAR_REGEX (c :: s) = None.
Proof. intros H. unfold CIGAR_REGEX. simpl. rewrite H. reflexivity. Qed.

(** A run of digits that no operator letter follows holds no token. *)
Lemma findall_CIGAR_dropped_run ds rest :
  forallb is_digit ds = true ->
  match rest with
  | [] => True
  | y :: _ => is_digit y = false /\ is_op_letter y = false
  end ->
  findall CIGAR_REGEX (ds ++ rest) = findall CIGAR_REGEX rest.
Proof.
  intros Hds Hrest. induction ds as [|d ds IH]; [reflexivity|].
  cbn [forallb] in Hds. apply andb_true_iff in Hds as [Hd Hds].
  cbn [app]. rewrite findall_skip; [apply IH, Hds|].
  unfold CIGAR_REGEX. change (d :: ds ++ rest) with ((d :: ds) ++ rest).
  destruct rest as [|y rest].
  - rewrite app_nil_r, span_all; [reflexivity|].
    cbn [forallb]. rewrite Hd, Hds. reflexivity.
  - destruct Hrest as [Hy Hop].
    rewrite (span_run is_digit (d :: ds) y rest); [rewrite Hop; reflexivity| |exact Hy].
    cbn [forallb]. rewrite Hd, Hds. reflexivity.
Qed.

Lemma letter_kind_code y :
  (is_op_letter y = true ->
   exists k, letter_kind y = Some k /\ CIGAR2CODE y = Ok (kind_code k))
  /\ (is_op_letter y = false -> letter_kind y = None).
Proof.
  destruct y as [[] [] [] [] [] [] [] []]; vm_compute; split; intros H;
    try discriminate; try reflexivity; eexists; split; reflexivity.
Qed.

(** The one pass over a run of digits. *)
Lemma scan_operations_run ds : forall open rest,
  forallb is_digit ds = true -> ds <> [] ->
  scan_operations open (ds ++ rest)
  = scan_operations
      (Some (fold_left (fun acc c => 10 * acc + digit_value c) ds
                       (match open with Some v => v | None => 0 end))) rest.
Proof.
  induction ds as [|d ds IH]; intros open rest Hds Hne; [congruence|].
  cbn [forallb] in Hds. apply andb_true_iff in Hds as [Hd Hds].
  cbn [app scan_operations]. rewrite Hd.
  destruct ds as [|d' ds]; [reflexivity|].
  rewrite IH by (exact Hds || discriminate). reflexivity.
Qed.

(** Decoding is the one pass. *)
Lemma decode_scan : forall n s,
  length s = n -> short_digit_runs s ->
  cigarstring_to_tuples s = Ok (scan_operations None s).
Proof.
  induction n as [n IH] using lt_wf_ind. intros s Hn Hshort.
  destruct (span is_digit s) as [ds rest] eqn:E.
  apply span_spec in E as (-> & Hds & Hrest).
  destruct ds as [|d ds].
  - destruct rest as [|y rest]; [reflexivity|]. cbn [app] in *.
    unfold cigarstring_to_tuples.
    rewrite findall_skip by (apply CIGAR_REGEX_nondigit; exact Hrest).
    fold (cigarstring_to_tuples rest).
    rewrite (IH (length rest)); [| simpl in Hn; lia | reflexivity
                                 | apply (short_digit_runs_tail y), Hshort].
    cbn [scan_operations]. rewrite Hrest.
    destruct (letter_kind y); reflexivity.
  - assert (Hx : digits (d :: ds)) by (split; [discriminate|exact Hds]).
    rewrite (scan_operations_run (d :: ds) None rest Hds ltac:(discriminate)).
    destruct rest as [|y rest].
    + unfold cigarstring_to_tuples.
      rewrite (findall_CIGAR_dropped_run (d :: ds) [] Hds I). reflexivity.
    + destruct (short_digit_runs_after _ y rest Hx Hrest Hshort) as [Hlen Hr].
      assert (Hlt : (length rest < n)%nat).
      { subst n. rewrite length_app. simpl. lia. }
      pose proof (IH (length rest) Hlt rest eq_refl Hr) as IHrest.
      cbn [scan_operations]. rewrite Hrest.
      destruct (letter_kind_code y) as [Hop Hnop].
      destruct (is_op_letter y) eqn:Hy.
      * destruct (Hop eq_refl) as (k & -> & Hcode).
        unfold cigarstring_to_tuples in *.
        rewrite (findall_CIGAR_token (d :: ds) y rest Hx Hy).
        cbn [rmap rbind]. rewrite Hcode. cbn [rbind].
        rewrite (int_digits _ Hx Hlen). cbn [rbind]. rewrite IHrest. reflexivity.
      * rewrite (Hnop eq_refl). unfold cigarstring_to_tuples in *.
        rewrite (findall_CIGAR_dropped_run (d :: ds) (y :: rest) Hds (conj Hrest Hy)).
        rewrite findall_skip by (apply CIGAR_REGEX_nondigit; exact Hrest).
        exact IHrest.
Qed.

(** C1 (amended): on a string whose runs of digits have at most 4300
    digits, the most that [int] converts, [cigarstring_to_tuples] raises
    nothing, malformed or not. It returns, in order, one operation for each
    letter of [MIDNSHP=XB] that directly follows a digit, with the code of
    the letter and the value of the whole run of digits before it; every
    other character is passed over. *)
Theorem decode_scans_operations (s : str) :
  short_digit_runs s ->
  cigarstring_to_tuples s = Ok (scan_operations None s).
Proof. intros Hs. apply (decode_scan (length s) s eq_refl Hs). Qed.

Lemma decode_scans_operations_witness :
  cigarstring_to_tuples (lit "3M!M12x2I?7")
  = Ok (scan_operations None (lit "3M!M12x2I?7")).
Proof.
  apply (decode_scans_operations (lit "3M!M12x2I?7")). vm_compute. reflexivity.
Defined.

(** At the limit of [int]: a run of 4300 digits is converted, one of 4301
    raises [ValueError]. *)
Example ex_int_max_str_digits :
  cigarstring_to_tuples (repeat "1"%char 4300 ++ lit "M")
  = Ok [(0, (10 ^ 4300 - 1) / 9)]
  /\ cigarstring_to_tuples (repeat "1"%char 4301 ++ lit "M") = Raise ValueError.
Proof. split; vm_compute; reflexivity. Qed.

(** ** Decimal numerals *)

Lemma log2_div10 n : (10 <= n -> N.log2 (n / 10) < N.log2 n)%N.
Proof.
  intros Hn.
  assert (Hq : (1 <= n / 10)%N).
  { apply N.div_le_lower_bound; lia. }
  assert (H2 : (2 * (n / 10) <= n)%N).
  { pose proof (N.Div0.mul_div_le n 10). lia. }
  apply N.log2_le_mono in H2.
  rewrite N.log2_double in H2 by lia. lia.
Qed.




Lemma digit_char_value c :
  is_digit c = true ->
  exists n, digit_value c = Z.of_N n /\ (n < 10)%N /\ digit_char n = c /\
            (c <> "0"%char -> (1 <= n)%N).
Proof.
  destruct c as [[] [] [] [] [] [] [] []]; vm_compute; try congruence;
    intros _;
    match goal with
    | |- exists n, Z0 = _ /\ _ => exists 0%N
    | |- exists n, Zpos ?p = _ /\ _ => exists (Npos p)
    end; vm_compute; repeat split; congruence.
Qed.




(** ** Scoring *)

Lemma cigar_score_known code :
  known_code code = true <-> exists f, _cigar_score code = Some f.
Proof.
  unfold known_code. split.
  - intros H. apply andb_true_iff in H as [H0 H9].
    apply Z.leb_le in H0, H9.
    assert (Hc : code = 0 \/ code = 1 \/ code = 2 \/ code = 3 \/ code = 4 \/
                 code = 5 \/ code = 6 \/ code = 7 \/ code = 8 \/ code = 9) by lia.
    repeat (destruct Hc as [-> | Hc]; [simpl; eauto|]). subst. simpl. eauto.
  - intros [f Hf]. destruct code as [|p|p]; try discriminate; [reflexivity|].
    do 4 (destruct p as [p|p|]; try discriminate; try reflexivity).
Qed.

Lemma cigar_score_unknown code :
  known_code code = false <-> _cigar_score code = None.
Proof.
  pose proof (cigar_score_known code) as H.
  destruct (known_code code), (_cigar_score code) as [f|]; split; intros H0;
    try reflexivity; try discriminate.
  - destruct (proj1 H eq_refl) as [f Hf]. discriminate.
  - pose proof (proj2 H (ex_intro _ f eq_refl)). discriminate.
Qed.

Lemma score_step_known self acc k L :
  score_step (self, acc) (kind_code k, L) = (self, acc + contribution k L).
Proof. destruct k; simpl; f_equal; lia. Qed.

Lemma score_cigartuples_acc self ops : forall acc,
  fold_left score_step (map (fun op => (kind_code (fst op), snd op)) ops) (self, acc)
  = (self, acc + Zsum (map (fun op => contribution (fst op) (snd op)) ops)).
Proof.
  induction ops as [|[k L] ops IH]; intros acc;
    cbn [map fold_left fst snd Zsum fold_right].
  - f_equal. lia.
  - rewrite score_step_known, IH. f_equal. unfold Zsum. lia.
Qed.

(** C6: on a sequence of operations of the ten kinds, the score is the sum
    of the contributions of the table, and the instance is left as it was;
    ["2I3M"] scores [-(6+2) + 3 = -5]. *)
Theorem score_sums_contributions :
  forall (self : CigarScorer) (ops : list (CigarOperation * Z)),
    score_cigartuples self (map (fun op => (kind_code (fst op), snd op)) ops)
    = (self, Zsum (map (fun op => contribution (fst op) (snd op)) ops))
    /\ cigarstring_to_tuples (lit "2I3M")
       = Ok [(kind_code Insertion, 2); (kind_code Match, 3)]
    /\ score_cigarstring self (lit "2I3M") = Ok (self, - (6 + 2) + 3)
    /\ - (6 + 2) + 3 = -5.
Proof.
  intros self ops. split; [|split; [|split]].
  - unfold score_cigartuples. rewrite score_cigartuples_acc. reflexivity.
  - vm_compute. reflexivity.
  - destruct self. vm_compute. reflexivity.
  - reflexivity.
Qed.

Lemma score_step_spec self acc c :
  warned_once self ->
  let st' := score_step (self, acc) c in
  snd st' = acc + tuple_score c /\
  warned_once (fst st') /\
  (forall code, code ∈ cig_warned (fst st') <->
                code ∈ cig_warned self \/ (code = fst c /\ known_code code = false)).
Proof.
  intros Hinv. unfold score_step, tuple_score.
  destruct (_cigar_score (fst c)) as [f|] eqn:Hf; simpl.
  - split; [reflexivity|]. split; [exact Hinv|].
    intros code. split; [auto|]. intros [H|[-> H]]; [exact H|].
    apply cigar_score_unknown in H. congruence.
  - apply cigar_score_unknown in Hf.
    destruct (decide (fst c ∈ cig_warned self)) as [Hin|Hnotin]; simpl.
    + split; [lia|]. split; [exact Hinv|].
      intros code. split; [auto|]. intros [H|[-> H]]; auto.
    + split; [lia|]. split.
      * intros code. unfold warnings_for. simpl.
        rewrite List.filter_app, length_app. simpl.
        fold (warnings_for code self). rewrite (Hinv code).
        destruct (Z.eqb_spec (fst c) code) as [Heq|Hne];
          destruct (decide (code ∈ cig_warned self)) as [H1|H1];
          destruct (decide (code ∈ {[fst c]} ∪ cig_warned self)) as [H2|H2];
          simpl; try lia; exfalso;
          rewrite ?elem_of_union, ?elem_of_singleton in *; subst;
          try tauto; destruct H2 as [H2|H2]; congruence.
      * intros code. rewrite elem_of_union, elem_of_singleton.
        split; [intros [->|H]; auto|intros [H|[-> _]]; auto].
Qed.

Lemma score_cigartuples_spec ctups : forall self acc,
  warned_once self ->
  snd (fold_left score_step ctups (self, acc))
  = acc + Zsum (map tuple_score ctups) /\
  warned_once (fst (fold_left score_step ctups (self, acc))) /\
  (forall code,
     code ∈ cig_warned (fst (fold_left score_step ctups (self, acc))) <->
     code ∈ cig_warned self \/
     (occurs code ctups = true /\ known_code code = false)).
Proof.
  induction ctups as [|c ctups IH]; intros self acc Hinv.
  - simpl. split; [lia|]. split; [exact Hinv|]. intros code. split; [auto|].
    intros [H|[H _]]; [exact H|discriminate].
  - cbn [fold_left].
    destruct (score_step_spec self acc c Hinv) as (Hs & Hi & Hw).
    destruct (score_step (self, acc) c) as [self1 acc1]. cbn [fst snd] in *.
    destruct (IH self1 acc1 Hi) as (Hs' & Hi' & Hw').
    split; [rewrite Hs', Hs; simpl; lia|]. split; [exact Hi'|].
    intros code. rewrite Hw', Hw. simpl.
    rewrite orb_true_iff, Z.eqb_eq. intuition congruence.
Qed.

(** The loop of [lifetime]. *)
Lemma lifetime_spec calls : forall self scores,
  warned_once self ->
  let step := fun (st : CigarScorer * list Z) ctups =>
    let '(self', score) := score_cigartuples (fst st) ctups in
    (self', snd st ++ [score]) in
  snd (fold_left step calls (self, scores))
  = scores ++ map (fun ctups => Zsum (map tuple_score ctups)) calls /\
  warned_once (fst (fold_left step calls (self, scores))) /\
  (forall code,
     code ∈ cig_warned (fst (fold_left step calls (self, scores))) <->
     code ∈ cig_warned self \/
     (occurs code (concat calls) = true /\ known_code code = false)).
Proof.
  intros self scores Hinv step. revert self scores Hinv.
  induction calls as [|ctups calls IH]; intros self scores Hinv.
  - simpl. split; [rewrite app_nil_r; reflexivity|]. split; [exact Hinv|].
    intros code. split; [auto|]. intros [H|[H _]]; [exact H|discriminate].
  - cbn [fold_left].
    destruct (score_cigartuples_spec ctups self 0 Hinv) as (Hs & Hi & Hw).
    unfold step at 2 4 6. cbn [fst snd]. unfold score_cigartuples.
    destruct (fold_left score_step ctups (self, 0)) as [self1 score1].
    cbn [fst snd] in *.
    destruct (IH self1 (scores ++ [score1]) Hi) as (Hs' & Hi' & Hw').
    split; [rewrite Hs', Hs, <- app_assoc; reflexivity|]. split; [exact Hi'|].
    intros code. rewrite Hw', Hw. unfold occurs. cbn [concat].
    rewrite existsb_app, orb_true_iff. intuition.
Qed.

Lemma warned_once_init : warned_once init.
Proof. intros code. reflexivity. Qed.

(** C7: over the life of one instance, whatever calls are made, no call
    raises; each call returns the sum of the table's contributions, an
    operation of unknown kind adding 0; and in the end exactly one warning
    has been logged for each unknown kind that occurred, none for any other
    code. *)
Theorem unknown_kind_warned_once :
  forall (calls : list (list (Z * Z))),
    snd (lifetime init calls)
    = map (fun ctups => Zsum (map tuple_score ctups)) calls
    /\ (forall code L, known_code code = false -> tuple_score (code, L) = 0)
    /\ (forall code,
          warnings_for code (fst (lifetime init calls))
          = if negb (known_code code) && occurs code (concat calls)
            then 1%nat else 0%nat).
Proof.
  intros calls.
  destruct (lifetime_spec calls init [] warned_once_init) as (Hs & Hi & Hw).
  fold (lifetime init calls) in Hs, Hi, Hw.
  split; [exact Hs|]. split.
  - intros code L H. unfold tuple_score. simpl.
    apply cigar_score_unknown in H. rewrite H. reflexivity.
  - intros code. rewrite (Hi code).
    destruct (known_code code) eqn:Hk, (occurs code (concat calls)) eqn:Ho; simpl.
    + apply decide_False. rewrite Hw, Ho, Hk.
      intros [H|[_ H]]; [exact (not_elem_of_empty _ H)|discriminate].
    + apply decide_False. rewrite Hw, Ho, Hk.
      intros [H|[_ H]]; [exact (not_elem_of_empty _ H)|discriminate].
    + apply decide_True. rewrite Hw, Ho, Hk. auto.
    + apply decide_False. rewrite Hw, Ho, Hk.
      intros [H|[H _]]; [exact (not_elem_of_empty _ H)|discriminate].
Qed.

Lemma unknown_kind_warned_once_witness :
  snd (lifetime init [[(0, 5); (12, 3); (12, 4)]; [(12, 1); (1, 2)]])
  = map (fun ctups => Zsum (map tuple_score ctups))
        [[(0, 5); (12, 3); (12, 4)]; [(12, 1); (1, 2)]]
  /\ tuple_score (12, 3) = 0
  /\ warnings_for 12
       (fst (lifetime init [[(0, 5); (12, 3); (12, 4)]; [(12, 1); (1, 2)]]))
     = 1%nat.
Proof.
  destruct (unknown_kind_warned_once [[(0, 5); (12, 3); (12, 4)]; [(12, 1); (1, 2)]])
    as (Hs & Hz & Hw).
  split; [exact Hs|]. split; [apply Hz; reflexivity|].
  rewrite (Hw 12). reflexivity.
Defined.

Example ex_lifetime :
  let st := lifetime init [[(0, 5); (12, 3); (12, 4)]; [(12, 1); (11, 2); (1, 2)]] in
  snd st = [5; -8] /\
  logged (fst st) = [Warning 12; Warning 11].
Proof. vm_compute. split; reflexivity. Qed.

(** ** MD tags *)

Lemma letter_not_caret c :
  is_ascii_letter c = true -> Ascii.eqb c "^"%char = false /\ isalpha c = true.
Proof.
  destruct c as [[] [] [] [] [] [] [] []]; vm_compute; split; congruence.
Qed.

(** What [MD_REGEX] matches at the head: a run of letters that no letter
    follows, or a caret and one letter. *)
Lemma MD_REGEX_match_spec s x rest :
  MD_REGEX s = Some (x, rest) ->
  s = x ++ rest /\
  ((letter_run x /\ match rest with [] => True | c :: _ => is_ascii_letter c = false end)
   \/ caret_token x).
Proof.
  unfold MD_REGEX. destruct (span is_ascii_letter s) as [a b] eqn:E.
  apply span_spec in E as (Hs & Ha & Hb). destruct a as [|d a].
  - destruct s as [|c [|l s]]; try discriminate.
    destruct (Ascii.eqb_spec c "^"%char) as [->|]; [|discriminate]. simpl.
    destruct (is_ascii_letter l) eqn:Hl; [|discriminate].
    intros [= <- <-]. split; [reflexivity|]. right. exists l. auto.
  - intros [= <- <-]. split; [exact Hs|]. left. split; [|exact Hb].
    split; [discriminate|exact Ha].
Qed.

Lemma MD_REGEX_none c s :
  MD_REGEX (c :: s) = None ->
  is_ascii_letter c = false /\
  (Ascii.eqb c "^"%char = true ->
   match s with [] => True | l :: _ => is_ascii_letter l = false end).
Proof.
  unfold MD_REGEX. simpl. destruct (is_ascii_letter c) eqn:Hc.
  - destruct (span is_ascii_letter s). discriminate.
  - intros H. split; [reflexivity|]. intros Hcaret.
    destruct s as [|l s]; [exact I|]. rewrite Hcaret in H. simpl in H.
    destruct (is_ascii_letter l); [discriminate|reflexivity].
Qed.

Lemma unmarked_letters_flag b s :
  match s with [] => True | c :: _ => is_ascii_letter c = false end ->
  unmarked_letters b s = unmarked_letters false s.
Proof. destruct s as [|c s]; [reflexivity|]. simpl. intros ->. reflexivity. Qed.

Lemma unmarked_letters_run x rest :
  forallb is_ascii_letter x = true ->
  unmarked_letters false (x ++ rest)
  = Z.of_nat (length x) + unmarked_letters false rest.
Proof.
  induction x as [|c x IH]; [reflexivity|].
  intros H. simpl in H. apply andb_true_iff in H as [Hc Hx].
  cbn [app unmarked_letters length]. rewrite Hc.
  destruct (letter_not_caret c Hc) as [-> _]. rewrite (IH Hx). simpl negb.
  cbn [andb]. lia.
Qed.

Lemma md_fold_weights toks : forall p,
  fold_left
    (fun p x =>
       match x with
       | x0 :: _ => if isalpha x0 then p + Z.of_nat (length x) else p
       | [] => p
       end) toks p
  = p + Zsum (map token_weight toks).
Proof.
  induction toks as [|x toks IH]; intros p; cbn [fold_left map Zsum fold_right].
  - lia.
  - rewrite IH. unfold token_weight at 2, starts_alpha, Zsum.
    destruct x as [|x0 x]; [lia|]. destruct (isalpha x0); lia.
Qed.

Lemma Zsum_weights_filter toks :
  Zsum (map token_weight toks)
  = Z.of_nat (length (concat (List.filter starts_alpha toks))).
Proof.
  induction toks as [|x toks IH]; [reflexivity|].
  cbn [map Zsum fold_right List.filter]. fold (Zsum (map token_weight toks)).
  rewrite IH. unfold token_weight. destruct (starts_alpha x); [|lia].
  cbn [concat]. rewrite length_app. lia.
Qed.

Lemma letter_run_starts_alpha x : letter_run x -> starts_alpha x = true.
Proof.
  intros [Hne Hx]. destruct x as [|c x]; [congruence|]. simpl in *.
  apply andb_true_iff in Hx as [Hc _]. apply (letter_not_caret c Hc).
Qed.

Lemma caret_token_starts_alpha x : caret_token x -> starts_alpha x = false.
Proof. intros (l & -> & _). reflexivity. Qed.

Lemma findall_MD_tokens s :
  Forall (fun x => letter_run x \/ caret_token x) (findall MD_REGEX s).
Proof.
  apply (findall_ind MD_REGEX MD_REGEX_progress
           (fun _ l => Forall (fun x => letter_run x \/ caret_token x) l)).
  - constructor.
  - intros s' x rest E IH.
    apply MD_REGEX_match_spec in E as (_ & [[Hx _]|Hx]); constructor; auto.
  - auto.
Qed.

Lemma md_weights_unmarked s :
  Zsum (map token_weight (findall MD_REGEX s)) = unmarked_letters false s.
Proof.
  apply (findall_ind MD_REGEX MD_REGEX_progress
           (fun s l => Zsum (map token_weight l) = unmarked_letters false s)).
  - reflexivity.
  - intros s' x rest E IH.
    apply MD_REGEX_match_spec in E as (-> & [[Hx Hrest]|Hx]).
    + cbn [map Zsum fold_right]. fold (Zsum (map token_weight (findall MD_REGEX rest))).
      rewrite IH, unmarked_letters_run by apply Hx.
      unfold token_weight. rewrite (letter_run_starts_alpha _ Hx). reflexivity.
    + cbn [map Zsum fold_right]. fold (Zsum (map token_weight (findall MD_REGEX rest))).
      rewrite IH. unfold token_weight. rewrite (caret_token_starts_alpha _ Hx).
      destruct Hx as (l & -> & Hl). cbn [app unmarked_letters].
      rewrite Hl. destruct (letter_not_caret l Hl) as [-> _]. simpl. lia.
  - intros c s' E IH. rewrite IH.
    apply MD_REGEX_none in E as [Hc Hcaret].
    cbn [unmarked_letters]. rewrite Hc. cbn [andb].
    destruct (Ascii.eqb c "^"%char); [|reflexivity].
    rewrite (unmarked_letters_flag true s' (Hcaret eq_refl)). reflexivity.
Qed.

(** C5: the tokens that [md_mismatches] scans are runs of ASCII letters and
    caret-plus-one-letter tokens; it adds up the lengths of the tokens
    whose first character is a letter, so a caret token adds nothing and a
    digit is in no token. Put differently, it counts the letters that do
    not directly follow a caret. [md_mismatches("10A5^AC3") = 2]. *)
Theorem md_mismatches_counts_letter_runs :
  forall md_tag : str,
    Forall (fun x => letter_run x \/ caret_token x) (findall MD_REGEX md_tag)
    /\ md_mismatches md_tag
       = Z.of_nat (length (concat (List.filter starts_alpha (findall MD_REGEX md_tag))))
    /\ (forall x, letter_run x -> starts_alpha x = true)
    /\ (forall x, caret_token x -> starts_alpha x = false)
    /\ md_mismatches md_tag = unmarked_letters false md_tag
    /\ findall MD_REGEX (lit "10A5^AC3") = [lit "A"; lit "^A"; lit "C"]
    /\ md_mismatches (lit "10A5^AC3") = 2.
Proof.
  intros md_tag. unfold md_mismatches. rewrite md_fold_weights.
  repeat split.
  - apply findall_MD_tokens.
  - rewrite Zsum_weights_filter. lia.
  - apply letter_run_starts_alpha.
  - apply caret_token_starts_alpha.
  - rewrite md_weights_unmarked. lia.
Qed.

Lemma md_mismatches_counts_letter_runs_witness :
  starts_alpha (lit "AC") = true
  /\ starts_alpha (lit "^A") = false
  /\ md_mismatches (lit "10A5^AC3") = unmarked_letters false (lit "10A5^AC3").
Proof.
  destruct (md_mismatches_counts_letter_runs (lit "10A5^AC3"))
    as (_ & _ & Hrun & Hcaret & Hcount & _).
  split; [apply Hrun; split; [discriminate|reflexivity]|].
  split; [apply Hcaret; exists "A"%char; split; reflexivity|exact Hcount].
Defined.

(** ** Floating-point facts *)

Lemma feqb_eq a b : feqb a b = true -> a = b.
Proof.
  destruct a as [x| | |], b as [y| | |]; simpl; try discriminate; try reflexivity.
  intros H. f_equal. apply Qc_is_canon. apply Qeq_bool_iff. exact H.
Qed.

Lemma flist_eqb_eq l1 : forall l2, flist_eqb l1 l2 = true -> l1 = l2.
Proof.
  induction l1 as [|a l1 IH]; intros [|b l2]; simpl; try discriminate;
    [reflexivity|].
  intros H. apply andb_true_iff in H as [Hab Hl].
  rewrite (feqb_eq _ _ Hab), (IH _ Hl). reflexivity.
Qed.

Lemma Qred_sgn q : Z.sgn (Qnum (Qred q)) = Z.sgn (Qnum q).
Proof.
  pose proof (Qred_correct q) as H. unfold Qeq in H.
  destruct (Qred q) as [n d], q as [n' d']. simpl in *.
  destruct n, n'; simpl; try reflexivity; exfalso; lia.
Qed.

Lemma Qc_sgn_of_Z z : Qc_sgn (Q2Qc (inject_Z z)) = Z.sgn z.
Proof. unfold Qc_sgn. simpl. apply Qred_sgn. Qed.

Lemma fadd_0_r a : fadd a (Fin 0%Qc) = a.
Proof. destruct a; simpl; try reflexivity. f_equal. ring. Qed.

Lemma fsub_0_r a : fsub a (Fin 0%Qc) = a.
Proof. destruct a; simpl; try reflexivity. f_equal. ring. Qed.

Lemma fsub_diag_Fin q : fsub (Fin q) (Fin q) = Fin 0%Qc.
Proof. simpl. f_equal. ring. Qed.

Lemma nan_to_num_Fin a : exists q, nan_to_num a = Fin q.
Proof. destruct a; simpl; eauto. Qed.

Lemma fmul_Fin_0 q : fmul (Fin q) (Fin 0%Qc) = Fin 0%Qc.
Proof. simpl. f_equal. ring. Qed.

Lemma fold_fadd_NaN l : fold_left fadd l NaN = NaN.
Proof. induction l as [|a l IH]; [reflexivity|]. simpl. exact IH. Qed.

(** With a positive total every sensitivity is finite, and that of no
    read at all is 0. *)
Lemma sens_Fin total tp : (total <> 0)%N -> exists q, sens total tp = Fin q.
Proof.
  intros H. unfold sens, of_N, of_Z, fdiv. rewrite Qc_sgn_of_Z.
  destruct (Z.eqb_spec (Z.sgn (Z.of_N total)) 0) as [E|_]; [lia|]. eauto.
Qed.

Lemma sens_0 total : (total <> 0)%N -> sens total 0 = Fin 0%Qc.
Proof.
  intros H. unfold sens, of_N, of_Z, fdiv. rewrite Qc_sgn_of_Z.
  destruct (Z.eqb_spec (Z.sgn (Z.of_N total)) 0) as [E|_]; [lia|].
  f_equal. apply Qc_is_canon. simpl. unfold Qcdiv, Qcmult, Q2Qc. simpl.
  rewrite !Qred_correct. reflexivity.
Qed.

Lemma sens_total_0 : sens 0 0 = NaN.
Proof. reflexivity. Qed.

(** ** The table *)

Lemma Nsum_acc l : forall a, fold_left N.add l a = (a + Nsum l)%N.
Proof.
  unfold Nsum. induction l as [|x l IH]; intros a; simpl; [lia|].
  rewrite IH, (IH (0 + x)%N). lia.
Qed.

Lemma Nsum_cons x l : Nsum (x :: l) = (x + Nsum l)%N.
Proof. unfold Nsum at 1. simpl. apply Nsum_acc. Qed.

Lemma Nsum_app l1 l2 : Nsum (l1 ++ l2) = (Nsum l1 + Nsum l2)%N.
Proof.
  induction l1 as [|x l1 IH]; [reflexivity|].
  simpl. rewrite !Nsum_cons, IH. lia.
Qed.

Lemma Nsum_rev l : Nsum (rev l) = Nsum l.
Proof.
  induction l as [|x l IH]; [reflexivity|].
  cbn [rev]. rewrite Nsum_app, IH, !Nsum_cons.
  change (Nsum []) with 0%N. lia.
Qed.

Lemma Nsum_Permutation l1 l2 : l1 ≡ₚ l2 -> Nsum l1 = Nsum l2.
Proof.
  induction 1; rewrite ?Nsum_cons; lia.
Qed.

Lemma running_app t l1 l2 :
  running t (l1 ++ l2) = running t l1 ++ running (t + Nsum l1) l2.
Proof.
  revert t. induction l1 as [|x l1 IH]; intros t; simpl.
  - f_equal. unfold Nsum. simpl. lia.
  - rewrite IH, Nsum_cons. do 3 f_equal. lia.
Qed.

(** The two reversed loops compute the suffix sums. *)
Lemma cumulate_suffix_sums l : rev (running 0 (rev l)) = suffix_sums l.
Proof.
  induction l as [|x l IH]; [reflexivity|].
  cbn [rev suffix_sums]. rewrite running_app, rev_app_distr, IH.
  cbn [running rev app]. rewrite Nsum_rev, Nsum_cons. f_equal. lia.
Qed.

Lemma sorted_keys_Permutation (counts : gmap Z counts_rec) :
  sorted_keys counts ≡ₚ map fst (map_to_list counts).
Proof. apply merge_sort_Permutation. Qed.

Lemma sorted_keys_elem (counts : gmap Z counts_rec) t :
  t ∈ sorted_keys counts <-> exists c, counts !! t = Some c.
Proof.
  rewrite sorted_keys_Permutation, list_elem_of_fmap. split.
  - intros ([t' c] & -> & H). apply elem_of_map_to_list in H. eauto.
  - intros [c H]. exists (t, c). split; [reflexivity|].
    apply elem_of_map_to_list. exact H.
Qed.

Lemma StronglySorted_le_lt (l : list Z) :
  StronglySorted Z.le l -> NoDup l -> StronglySorted Z.lt l.
Proof.
  induction 1 as [|x l _ IH Hx]; intros Hnd; constructor.
  - apply IH. eapply NoDup_cons_1_2. exact Hnd.
  - apply NoDup_cons in Hnd as [Hnotin _].
    rewrite Forall_forall in *. intros y Hy.
    assert (x <> y) by (intros ->; exact (Hnotin Hy)).
    specialize (Hx y Hy). lia.
Qed.

Lemma sorted_keys_increasing (counts : gmap Z counts_rec) :
  StronglySorted Z.lt (sorted_keys counts).
Proof.
  apply StronglySorted_le_lt.
  - apply StronglySorted_merge_sort; apply _.
  - rewrite sorted_keys_Permutation. apply NoDup_fst_map_to_list.
Qed.

Lemma float_of_int_exact n : (n < 2 ^ 53)%N -> float_of_int n = Ok n.
Proof.
  intros H. unfold float_of_int.
  destruct (N.ltb_spec n (2 ^ 53)) as [_|Hge]; [|lia].
  assert (H53 : (2 ^ 53 < 2 ^ 1024)%N) by (apply N.pow_lt_mono_r; lia).
  destruct (N.ltb_spec n (2 ^ 1024)) as [_|Hge]; [reflexivity|lia].
Qed.

(** Below [2^53] the formats print the integer itself, rounded. *)
Lemma fmt_3g_exact c : (c < 2 ^ 53)%N -> fmt_3g c = Ok (round_3g c).
Proof. intros H. unfold fmt_3g. rewrite (float_of_int_exact c H). reflexivity. Qed.

Lemma fmt_g_exact t : Z.abs t < 2 ^ 53 -> fmt_g t = Ok (round_g t).
Proof.
  intros H. unfold fmt_g. rewrite float_of_int_exact; [reflexivity|].
  apply N2Z.inj_lt. rewrite N2Z.inj_abs_N, N2Z.inj_pow. exact H.
Qed.

Lemma table_lines (counts : gmap Z counts_rec) (ks : list Z) :
  representable counts ->
  (forall t, t ∈ ks -> exists c, counts !! t = Some c) ->
  rmap (table_line counts) ks
  = Ok (map (fun t => (round_g t, (round_3g (CONTAM (counts_at counts t)),
                                   round_3g (REF (counts_at counts t))))) ks).
Proof.
  intros Hrep. induction ks as [|t ks IH]; intros H; [reflexivity|].
  cbn [rmap map]. destruct (H t) as [c Hc]; [left|].
  destruct (Hrep t c Hc) as (Ht & Hr & Hcn).
  unfold table_line at 1, getitem, counts_at. rewrite Hc.
  rewrite (fmt_g_exact t Ht). cbn [rbind].
  rewrite (fmt_3g_exact _ Hcn). cbn [rbind].
  rewrite (fmt_3g_exact _ Hr). cbn [rbind].
  rewrite IH; [reflexivity|]. intros t' Ht'. apply H. right. exact Ht'.
Qed.

(** On a non-empty mapping of representable numbers and an open file,
    [write_table] returns [frame_of counts], writes it, and closes the
    file. *)
Lemma write_table_frame (counts : gmap Z counts_rec) (fh : file) :
  counts <> ∅ -> closed fh = false -> representable counts ->
  write_table counts fh
  = (Ok (frame_of counts),
     {| written := written fh ++ [frame_of counts]; closed := true |}).
Proof.
  intros Hne Hopen Hrep. unfold write_table.
  destruct (map_to_list counts) as [|[k c] l] eqn:E.
  - apply map_to_list_empty_iff in E. contradiction.
  - cbn [map fst].
    assert (Hk : counts !! k = Some c).
    { apply elem_of_map_to_list. rewrite E. left. }
    unfold getitem at 1. rewrite Hk. cbn [rbind].
    rewrite (table_lines counts _ Hrep) by (intros t; apply sorted_keys_elem).
    rewrite Hopen. unfold frame_of, contam_col, ref_col.
    rewrite !map_map. reflexivity.
Qed.

Ltac solve_representable :=
  unfold representable;
  repeat (apply map_Forall_insert_2;
          [repeat split; reflexivity|]);
  apply map_Forall_empty.

(** Beyond [2^53]: [10050000000000001] is first rounded to a double and is
    printed as [1e+16]; a count that no double holds raises
    [OverflowError], and [write_table] with it, the file untouched. *)
Example ex_float_limits :
  fmt_3g 10050000000000001 = Ok (10 ^ 16)%N
  /\ fmt_3g (10 ^ 400) = Raise OverflowError
  /\ write_table (<[0 := mkCounts (10 ^ 400) 0]> ∅) fresh_file
     = (Raise OverflowError, fresh_file).
Proof. repeat split; vm_compute; reflexivity. Qed.

Lemma ex_counts_representable : representable ex_counts.
Proof. unfold ex_counts. solve_representable. Qed.

(** C10: on the empty mapping [write_table] raises at
    [k, *_ = counts.keys()], the first statement of the header: no
    statistics are computed and the file is left as it was, neither written
    nor closed. *)
Theorem write_table_empty_raises :
  forall fh : file, write_table ∅ fh = (Raise ValueError, fh).
Proof. intros fh. unfold write_table. rewrite map_to_list_empty. reflexivity. Qed.

(** In an increasing list the suffix from an element on is the part that is
    at least that element. *)
Lemma suffix_sums_sorted (g : Z -> N) (ks : list Z) :
  StronglySorted Z.lt ks ->
  suffix_sums (map g ks)
  = map (fun T => Nsum (map g (List.filter (fun t => T <=? t) ks))) ks.
Proof.
  induction 1 as [|T ks Hs IH HT]; [reflexivity|].
  cbn [map suffix_sums List.filter]. rewrite Z.leb_refl. f_equal.
  - f_equal. cbn [map]. f_equal. f_equal. symmetry.
    apply forallb_filter_id. apply forallb_forall. intros t Ht.
    rewrite Forall_forall in HT. apply Z.leb_le.
    apply list_elem_of_In in Ht. specialize (HT t Ht). lia.
  - rewrite IH. apply map_ext_in. intros T' HT'.
    rewrite Forall_forall in HT. apply list_elem_of_In in HT'.
    specialize (HT T' HT').
    destruct (Z.leb_spec T' T); [lia|reflexivity].
Qed.

Lemma Nsum_filter {A} (g : A -> N) (P : A -> bool) l :
  Nsum (map g (List.filter P l))
  = Nsum (map (fun x => if P x then g x else 0%N) l).
Proof.
  induction l as [|x l IH]; [reflexivity|].
  cbn [List.filter map]. destruct (P x); cbn [map]; rewrite !Nsum_cons, IH; lia.
Qed.

Lemma sum_from_sorted (counts : gmap Z counts_rec) f T :
  sum_from counts f T
  = Nsum (map (fun t => f (counts_at counts t))
              (List.filter (fun t => T <=? t) (sorted_keys counts))).
Proof.
  unfold sum_from. rewrite !Nsum_filter.
  rewrite (Nsum_Permutation _ _
             (Permutation_map _ (sorted_keys_Permutation counts))).
  rewrite map_map. f_equal. apply map_ext_in.
  intros [t c] Hin. apply list_elem_of_In, elem_of_map_to_list in Hin.
  cbn [fst snd]. unfold counts_at. rewrite Hin. reflexivity.
Qed.

Lemma frame_TP (counts : gmap Z counts_rec) :
  df_TP (frame_of counts)
  = map (sum_from counts (fun c => round_3g (CONTAM c))) (sorted_keys counts).
Proof.
  unfold frame_of, calculate_stats, contam_col. cbn [df_TP].
  rewrite cumulate_suffix_sums.
  rewrite (suffix_sums_sorted (fun t => round_3g (CONTAM (counts_at counts t))))
    by apply sorted_keys_increasing.
  apply map_ext. intros T. rewrite sum_from_sorted. reflexivity.
Qed.

Lemma frame_FP (counts : gmap Z counts_rec) :
  df_FP (frame_of counts)
  = map (sum_from counts (fun c => round_3g (REF c))) (sorted_keys counts).
Proof.
  unfold frame_of, calculate_stats, ref_col. cbn [df_FP].
  rewrite cumulate_suffix_sums.
  rewrite (suffix_sums_sorted (fun t => round_3g (REF (counts_at counts t))))
    by apply sorted_keys_increasing.
  apply map_ext. intros T. rewrite sum_from_sorted. reflexivity.
Qed.

(** A count below 1000 has at most three digits and survives the text
    table unchanged. *)
Lemma round_3g_small c : (c < 1000)%N -> round_3g c = c.
Proof.
  intros H. unfold round_3g, round_sig.
  assert (Hu : scale_fuel (N.to_nat (N.size c)) (10 ^ 3) c 1 = 1%N).
  { destruct (N.to_nat (N.size c)); [reflexivity|]. cbn [scale_fuel].
    change (10 ^ 3 * 1)%N with 1000%N.
    destruct (N.ltb_spec c 1000); [reflexivity|lia]. }
  rewrite Hu. unfold round_half_even.
  rewrite N.mod_1_r, N.div_1_r. simpl. lia.
Qed.

Lemma sum_from_ext (counts : gmap Z counts_rec) f g T :
  (forall t c, counts !! t = Some c -> f c = g c) ->
  sum_from counts f T = sum_from counts g T.
Proof.
  intros H. unfold sum_from. f_equal. apply map_ext_in.
  intros [t c] Hin. apply filter_In in Hin as [Hin _].
  apply list_elem_of_In, elem_of_map_to_list in Hin. apply (H t c Hin).
Qed.

Lemma length_running l : forall t, length (running t l) = length l.
Proof. induction l as [|x l IH]; intros t; simpl; auto. Qed.

Lemma stats_rectangular (Threshold : list Z) (c r : list N) :
  length c = length Threshold -> length r = length Threshold ->
  rectangular (calculate_stats Threshold c r).
Proof.
  intros Hc Hr. unfold rectangular, calculate_stats.
  cbn [df_Threshold df_CONTAM df_REF df_TP df_FP df_Sensitivity df_Fallout
       df_Precision df_F1 df_F2].
  repeat split;
    rewrite ?length_zip_with, ?length_map, ?length_zip_with, ?length_map,
      ?length_rev, ?length_running, ?length_rev; lia.
Qed.

Lemma frame_rectangular (counts : gmap Z counts_rec) : rectangular (frame_of counts).
Proof.
  apply stats_rectangular; unfold contam_col, ref_col; rewrite !length_map; reflexivity.
Qed.

Lemma sorted_keys_nonempty (counts : gmap Z counts_rec) :
  counts <> ∅ -> sorted_keys counts <> [].
Proof.
  intros Hne E. apply Hne. apply map_to_list_empty_iff.
  pose proof (sorted_keys_Permutation counts) as HP. rewrite E in HP.
  apply Permutation_nil in HP. destruct (map_to_list counts); [reflexivity|discriminate].
Qed.

Lemma frame_Threshold (counts : gmap Z counts_rec) :
  df_Threshold (frame_of counts) = map round_g (sorted_keys counts).
Proof. reflexivity. Qed.

(** The last of an increasing list is its greatest element. *)
Lemma sorted_last_greatest (l : list Z) d :
  StronglySorted Z.lt l -> Forall (fun t => t <= List.last l d) l.
Proof.
  induction 1 as [|x l Hs IH Hx]; [constructor|].
  destruct l as [|y l]; [repeat constructor; simpl; lia|].
  change (List.last (x :: y :: l) d) with (List.last (y :: l) d).
  constructor; [|exact IH].
  inversion Hx as [|? ? Hxy _]; subst. inversion IH as [|? ? Hy _]; subst. lia.
Qed.

Lemma ex_counts_nonempty : ex_counts <> ∅.
Proof. apply insert_non_empty. Qed.

(** C3, as stated, fails: a count of 1234 is printed as [1.23e+03] in the
    text table, so the row of threshold 0 has [TP = 1230], not the sum 1234
    of the contaminant counts at thresholds from 0 on. *)
Lemma cumulative_counts_are_rounded :
  fst (write_table big_counts fresh_file) = Ok (frame_of big_counts) /\
  sorted_keys big_counts = [0] /\
  df_TP (frame_of big_counts) = [1230%N] /\
  sum_from big_counts CONTAM 0 = 1234%N.
Proof.
  split; [|repeat split; vm_compute; reflexivity].
  rewrite write_table_frame;
    [reflexivity|apply insert_non_empty|reflexivity|].
  unfold big_counts. solve_representable.
Qed.

(** C3 (amended): for a non-empty mapping whose thresholds and counts are
    below [2^53] in absolute value (so that the conversion to a double
    keeps them), written to an open file, the row of threshold [T] has as
    [TP] the sum over the thresholds at least [T]
    of the contaminant counts, each rounded to three significant digits as
    it is printed in the text table, and as [FP] the like sum of the
    reference counts. Where the counts survive the printing unchanged, as
    every count below 1000 does, these are the sums of the counts
    themselves. For [{0: {REF:10, CONTAM:5}, 1: {REF:2, CONTAM:8}}] the row
    of threshold 1 has [TP = 8], [FP = 2], sensitivity 8/13 and precision
    8/10, and the row of threshold 0 has [TP = 13], [FP = 12] and
    sensitivity 1. *)
Theorem cumulative_counts (counts : gmap Z counts_rec) (fh : file) :
  counts <> ∅ -> closed fh = false -> representable counts ->
  exists df,
    fst (write_table counts fh) = Ok df
    /\ df_Threshold df = map round_g (sorted_keys counts)
    /\ df_TP df
       = map (sum_from counts (fun c => round_3g (CONTAM c))) (sorted_keys counts)
    /\ df_FP df
       = map (sum_from counts (fun c => round_3g (REF c))) (sorted_keys counts)
    /\ ((forall t c, counts !! t = Some c ->
           round_3g (CONTAM c) = CONTAM c /\ round_3g (REF c) = REF c) ->
        df_TP df = map (sum_from counts CONTAM) (sorted_keys counts) /\
        df_FP df = map (sum_from counts REF) (sorted_keys counts))
    /\ (forall c, (c < 1000)%N -> round_3g c = c)
    /\ (fst (write_table ex_counts fresh_file) = Ok (frame_of ex_counts)
        /\ sorted_keys ex_counts = [0; 1]
        /\ df_TP (frame_of ex_counts) = [13%N; 8%N]
        /\ df_FP (frame_of ex_counts) = [12%N; 2%N]
        /\ df_Sensitivity (frame_of ex_counts) = [frac 1 1; frac 8 13]
        /\ df_Precision (frame_of ex_counts) = [frac 13 25; frac 8 10]).
Proof.
  intros Hne Hopen Hrep. exists (frame_of counts).
  rewrite write_table_frame by assumption.
  split; [reflexivity|]. split; [apply frame_Threshold|].
  split; [apply frame_TP|]. split; [apply frame_FP|]. split; [|split].
  - intros Hsmall. rewrite frame_TP, frame_FP. split; apply map_ext; intros T;
      apply sum_from_ext; intros t c Hc; apply (Hsmall t c Hc).
  - apply round_3g_small.
  - rewrite (write_table_frame ex_counts fresh_file ex_counts_nonempty eq_refl
             ex_counts_representable).
    repeat split; try (vm_compute; reflexivity);
      apply flist_eqb_eq; vm_compute; reflexivity.
Qed.

Lemma cumulative_counts_witness :
  exists df,
    fst (write_table ex_counts fresh_file) = Ok df
    /\ df_Threshold df = map round_g (sorted_keys ex_counts)
    /\ df_TP df = map (sum_from ex_counts CONTAM) (sorted_keys ex_counts)
    /\ df_FP df = map (sum_from ex_counts REF) (sorted_keys ex_counts).
Proof.
  destruct (cumulative_counts ex_counts fresh_file ex_counts_nonempty eq_refl
              ex_counts_representable)
    as (df & Hdf & Hlen & _ & _ & Hexact & Hsmall & _).
  exists df. split; [exact Hdf|]. split; [exact Hlen|]. apply Hexact.
  intros t c Hc. unfold ex_counts in Hc.
  apply lookup_insert_Some in Hc as [[_ <-]|[_ Hc]];
    [split; apply Hsmall; reflexivity|].
  apply lookup_insert_Some in Hc as [[_ <-]|[_ Hc]];
    [split; apply Hsmall; reflexivity|].
  rewrite lookup_empty in Hc. discriminate.
Defined.

(** C2 fails on the code: the [F2] column of [write_table] is computed with
    the factors [1 + 2] and [2], not [1 + 2^2] and [2^2] as
    [calculate_fbeta_score] does for [beta = 2]. On
    [{0: {REF:10, CONTAM:5}, 1: {REF:2, CONTAM:8}}] the column holds 13/17
    and 2/3 where the formula of the claim gives 65/77 and 20/31. *)
Theorem F2_column_differs_from_fbeta_2 :
  fst (write_table ex_counts fresh_file) = Ok (frame_of ex_counts)
  /\ df_Precision (frame_of ex_counts) = [frac 13 25; frac 4 5]
  /\ df_Sensitivity (frame_of ex_counts) = [frac 1 1; frac 8 13]
  /\ df_F2 (frame_of ex_counts) = [frac 13 17; frac 2 3]
  /\ zip_with (fun p s => calculate_fbeta_score p s (of_Z 2))
              (df_Precision (frame_of ex_counts))
              (df_Sensitivity (frame_of ex_counts))
     = [frac 65 77; frac 20 31]
  /\ zip_with (fun p s => fdiv (fmul (fmul (of_Z 5) p) s) (fadd (fmul (of_Z 4) p) s))
              (df_Precision (frame_of ex_counts))
              (df_Sensitivity (frame_of ex_counts))
     = [frac 65 77; frac 20 31]
  /\ feqb (frac 2 3) (frac 20 31) = false.
Proof.
  rewrite (write_table_frame ex_counts fresh_file ex_counts_nonempty eq_refl
             ex_counts_representable).
  repeat split; try (apply flist_eqb_eq; vm_compute; reflexivity).
Qed.

(** ** Average precision *)

Lemma zip_orb_true l : forall b,
  length l = length b -> Forall (eq true) b -> zip_with orb l b = b.
Proof.
  induction l as [|x l IH]; intros [|y b] Hlen Hb; try discriminate;
    [reflexivity|].
  inversion Hb; subst. simpl. rewrite orb_true_r, IH; auto.
Qed.

Lemma map_const_true {A} (c : list A) : Forall (eq true) (map (fun _ => true) c).
Proof. induction c; simpl; constructor; auto. Qed.

(** Every row of a rectangular frame is valid: its integer cells are never
    NA. *)
Lemma valid_rows_rectangular df :
  rectangular df ->
  valid_rows df = map (fun _ => true) (df_Threshold df).
Proof.
  intros (H1 & H2 & H3 & H4 & H5 & H6 & H7 & H8 & H9).
  unfold valid_rows. cbn [fold_right].
  repeat (rewrite (zip_orb_true _ (map (fun _ => true) (df_Threshold df)));
          [|rewrite !length_map; congruence|apply map_const_true]).
  reflexivity.
Qed.

Lemma argmax_all_true l : Forall (eq true) l -> argmax l = O.
Proof. destruct 1 as [|x l <- _]; reflexivity. Qed.

Lemma lookup_all_true (l : list bool) i :
  Forall (eq true) l -> (i < length l)%nat -> l !! i = Some true.
Proof.
  intros Hl Hi. destruct (lookup_lt_is_Some_2 l i Hi) as [b Hb].
  rewrite Hb. f_equal. symmetry.
  rewrite Forall_forall in Hl. apply Hl. eapply list_elem_of_lookup_2. exact Hb.
Qed.

Lemma lookup_last {A} (l : list A) d :
  l <> [] -> l !! (length l - 1)%nat = Some (List.last l d).
Proof.
  induction l as [|x l _] using rev_ind; [congruence|]. intros _.
  rewrite last_last, length_app. cbn [length].
  replace (length l + 1 - 1)%nat with (length l) by lia.
  apply list_lookup_middle. reflexivity.
Qed.

Lemma last_valid_index_rectangular df :
  rectangular df -> df_Threshold df <> [] ->
  last_valid_index df = Some (length (df_Sensitivity df) - 1)%nat.
Proof.
  intros Hrect Hne. pose proof Hrect as (_ & _ & _ & _ & HS & _).
  unfold last_valid_index. rewrite (valid_rows_rectangular _ Hrect).
  destruct (df_Threshold df) as [|t ts] eqn:E; [congruence|].
  rewrite <- E in *. clear E.
  assert (Hall : Forall (eq true) (map (fun _ : Z => true) (df_Threshold df)))
    by apply map_const_true.
  destruct (map (fun _ : Z => true) (df_Threshold df)) as [|b bs] eqn:Em.
  { apply (f_equal length) in Em. rewrite length_map in Em.
    destruct (df_Threshold df); [congruence|discriminate]. }
  rewrite <- Em in *. rewrite argmax_all_true.
  2:{ apply Forall_forall. intros x Hx. rewrite Forall_forall in Hall.
      apply Hall. apply list_elem_of_In. apply list_elem_of_In in Hx.
      apply in_rev. exact Hx. }
  rewrite length_map, Nat.sub_0_r, lookup_all_true.
  - rewrite HS. reflexivity.
  - exact Hall.
  - rewrite length_map. destruct (df_Threshold df); [congruence|simpl; lia].
Qed.

(** Products of precisions with successive differences, by position. *)
Lemma products_by_position P : forall S prev,
  length S = length P ->
  zip_with fmul (map nan_to_num P) (zip_with fsub S (prev :: S))
  = imap (fun i p => fmul (nan_to_num p)
                          (fsub (nth i S NaN) (nth i (prev :: S) NaN))) P.
Proof.
  induction P as [|p P IH]; intros [|s S] prev Hlen; try discriminate;
    [reflexivity|].
  cbn [map zip_with imap]. f_equal.
  rewrite IH by (simpl in Hlen; lia). apply imap_ext. reflexivity.
Qed.

Lemma hd_rev_last {A} (l : list A) d : nth 0 (rev l) d = List.last l d.
Proof.
  induction l as [|x l IH] using rev_ind; [reflexivity|].
  rewrite rev_app_distr, last_last. reflexivity.
Qed.

(** What [calculate_average_precision] computes on a table of at least one
    row, in the terms of its own statements. *)
Lemma average_precision_raw (df : DataFrame) (logger : list info_record) :
  rectangular df -> df_Threshold df <> [] ->
  let p_a :=
    fsum (zip_with fmul (map nan_to_num (rev (df_Precision df)))
            (sensitivity_of_last_row df :: diff (rev (df_Sensitivity df)))) in
  calculate_average_precision df logger
  = (Ok p_a, logger ++ [AveragePrecision p_a]).
Proof.
  intros Hrect Hne. pose proof Hrect as (_ & _ & _ & _ & HS & _).
  unfold calculate_average_precision.
  rewrite (last_valid_index_rectangular _ Hrect Hne).
  assert (HSne : df_Sensitivity df <> []).
  { intros E. rewrite E in HS. destruct (df_Threshold df); [congruence|discriminate]. }
  rewrite (lookup_last _ NaN HSne). reflexivity.
Qed.

(** C4, as stated, fails: on the table of
    [{0: {REF:10, CONTAM:5}, 1: {REF:2, CONTAM:8}}] the sum seeded with the
    sensitivity of the row of the lowest threshold (which is 1) is 1, while
    [calculate_average_precision] returns 9/13. *)
Lemma average_precision_seed_is_not_lowest_threshold :
  fst (write_table ex_counts fresh_file) = Ok (frame_of ex_counts)
  /\ df_Threshold (frame_of ex_counts) = [0; 1]
  /\ sensitivity_at_lowest_threshold (frame_of ex_counts) = frac 1 1
  /\ precision_Delta_sum (sensitivity_at_lowest_threshold (frame_of ex_counts))
                         (frame_of ex_counts) = frac 1 1
  /\ fst (calculate_average_precision (frame_of ex_counts) []) = Ok (frac 9 13)
  /\ feqb (frac 9 13) (frac 1 1) = false.
Proof.
  rewrite (write_table_frame ex_counts fresh_file ex_counts_nonempty eq_refl
             ex_counts_representable).
  split; [reflexivity|]. split; [vm_compute; reflexivity|].
  split; [apply feqb_eq; vm_compute; reflexivity|].
  split; [apply feqb_eq; vm_compute; reflexivity|].
  split; [|vm_compute; reflexivity].
  assert (H : exists v, fst (calculate_average_precision (frame_of ex_counts) [])
                        = Ok v /\ feqb v (frac 9 13) = true).
  { eexists. split; [vm_compute; reflexivity|vm_compute; reflexivity]. }
  destruct H as (v & -> & Hv). f_equal. apply feqb_eq. exact Hv.
Qed.

(** C4 (amended): over a table of at least one row,
    [calculate_average_precision] returns (and logs) the sum, over the rows
    in reversed order, of precision times Delta, a not-a-number precision
    counting as 0, where the first Delta is the sensitivity of the first
    row of that reversed order itself, that is of the last row of the
    table, and every later Delta is the difference between the sensitivity
    of its row and that of the row before it in the reversed order. A table
    built by [write_table] from a non-empty mapping whose thresholds and
    counts are below [2^53] in absolute value is such a table, and its last
    row is that of the highest threshold. *)
Theorem average_precision_sum (df : DataFrame) (logger : list info_record) :
  rectangular df -> df_Threshold df <> [] ->
  calculate_average_precision df logger
  = (Ok (precision_Delta_sum (sensitivity_of_last_row df) df),
     logger ++ [AveragePrecision
                  (precision_Delta_sum (sensitivity_of_last_row df) df)])
  /\ sensitivity_of_last_row df = nth 0 (rev (df_Sensitivity df)) NaN
  /\ (forall (counts : gmap Z counts_rec) (fh : file),
        counts <> ∅ -> closed fh = false -> representable counts ->
        exists df',
          fst (write_table counts fh) = Ok df'
          /\ rectangular df' /\ df_Threshold df' <> []
          /\ df_Threshold df' = map round_g (sorted_keys counts)
          /\ Forall (fun t => t <= List.last (sorted_keys counts) 0)
                    (sorted_keys counts)).
Proof.
  intros Hrect Hne. split; [|split; [symmetry; apply hd_rev_last|]].
  2:{ intros counts fh Hcounts Hopen Hrep. exists (frame_of counts).
      rewrite write_table_frame by assumption.
      split; [reflexivity|]. split; [apply frame_rectangular|].
      split; [|split; [apply frame_Threshold|]].
      - rewrite frame_Threshold. intros E.
        apply (sorted_keys_nonempty counts Hcounts).
        destruct (sorted_keys counts); [reflexivity|discriminate].
      - apply sorted_last_greatest, sorted_keys_increasing. }
  rewrite (average_precision_raw df logger Hrect Hne).
  pose proof Hrect as (_ & _ & _ & _ & HS & _ & HP & _).
  assert (E : zip_with fmul (map nan_to_num (rev (df_Precision df)))
                (sensitivity_of_last_row df :: diff (rev (df_Sensitivity df)))
              = imap (fun i p_i =>
                        fmul (nan_to_num p_i)
                             (Delta (sensitivity_of_last_row df)
                                    (rev (df_Sensitivity df)) i))
                     (rev (df_Precision df))).
  { assert (Hlen : length (rev (df_Sensitivity df)) = length (rev (df_Precision df)))
      by (rewrite !length_rev; congruence).
    destruct (rev (df_Sensitivity df)) as [|s1 S] eqn:ES.
    { apply (f_equal length) in ES. rewrite length_rev in ES.
      destruct (df_Sensitivity df);
        [destruct (df_Threshold df); [congruence|discriminate]|discriminate]. }
    destruct (rev (df_Precision df)) as [|p1 P]; [discriminate|].
    unfold diff. cbn [tl map zip_with imap Delta]. f_equal.
    rewrite products_by_position by (simpl in Hlen; lia).
    apply imap_ext. reflexivity. }
  unfold precision_Delta_sum. cbv zeta. rewrite E. reflexivity.
Qed.

Lemma average_precision_sum_witness :
  calculate_average_precision (frame_of ex_counts) []
  = (Ok (precision_Delta_sum (sensitivity_of_last_row (frame_of ex_counts))
                             (frame_of ex_counts)),
     [] ++ [AveragePrecision
              (precision_Delta_sum (sensitivity_of_last_row (frame_of ex_counts))
                                   (frame_of ex_counts))])
  /\ sensitivity_of_last_row (frame_of ex_counts)
     = nth 0 (rev (df_Sensitivity (frame_of ex_counts))) NaN.
Proof.
  destruct (average_precision_sum (frame_of ex_counts) []) as (H1 & H2 & _).
  - vm_compute. repeat split.
  - vm_compute. discriminate.
  - split; [exact H1|exact H2].
Defined.

(** ** A row without reads *)

Lemma rev_zip_with {A B C} (f : A -> B -> C) (l : list A) : forall (k : list B),
  length l = length k -> rev (zip_with f l k) = zip_with f (rev l) (rev k).
Proof.
  induction l as [|x l IH]; intros [|y k] Hlen; try discriminate; [reflexivity|].
  cbn [zip_with rev]. rewrite IH by (simpl in Hlen; lia).
  rewrite zip_with_app by (rewrite !length_rev; simpl in Hlen; lia).
  reflexivity.
Qed.

(** The columns of the frame, read from the highest threshold down. *)
Lemma stats_reversed (Threshold : list Z) (c r : list N) :
  length c = length r ->
  rev (df_Sensitivity (calculate_stats Threshold c r))
  = map (sens (Nsum c)) (running 0 (rev c)) /\
  rev (df_Precision (calculate_stats Threshold c r))
  = zip_with prec (running 0 (rev c)) (running 0 (rev r)).
Proof.
  intros Hlen. unfold calculate_stats. cbn [df_Sensitivity df_Precision]. split.
  - rewrite <- map_rev, rev_involutive. reflexivity.
  - rewrite rev_zip_with by (rewrite !length_rev, !length_running, !length_rev; exact Hlen).
    rewrite !rev_involutive. reflexivity.
Qed.

Lemma products_ap_terms total (c : list N) : forall (r : list N) tc tr prev,
  length c = length r ->
  zip_with fmul (map nan_to_num (zip_with prec (running tc c) (running tr r)))
    (zip_with fsub (map (sens total) (running tc c))
                   (prev :: map (sens total) (running tc c)))
  = ap_terms total prev tc tr (zip c r).
Proof.
  induction c as [|x c IH]; intros [|y r] tc tr prev Hlen; try discriminate;
    [reflexivity|].
  cbn [running zip_with map ap_terms]. f_equal.
  apply IH. simpl in Hlen. lia.
Qed.

(** The average precision of a non-empty mapping, as the sum of the terms
    collected from the highest threshold down. *)
Lemma average_precision_of_terms (counts : gmap Z counts_rec) :
  counts <> ∅ -> representable counts ->
  average_precision_of counts
  = Ok (fsum (ap_terms (Nsum (contam_col counts)) (Fin 0%Qc) 0 0
                (zip (rev (contam_col counts)) (rev (ref_col counts))))).
Proof.
  intros Hne Hrep. unfold average_precision_of.
  change {| written := []; closed := false |} with fresh_file.
  rewrite (write_table_frame counts fresh_file Hne eq_refl Hrep). cbn [fst].
  assert (Hk : df_Threshold (frame_of counts) <> []).
  { unfold frame_of, calculate_stats. cbn [df_Threshold].
    intros E. apply (sorted_keys_nonempty counts Hne).
    destruct (sorted_keys counts); [reflexivity|discriminate]. }
  rewrite (average_precision_raw _ [] (frame_rectangular counts) Hk). cbn [fst].
  assert (Hlen : length (contam_col counts) = length (ref_col counts))
    by (unfold contam_col, ref_col; rewrite !length_map; reflexivity).
  unfold sensitivity_of_last_row. rewrite <- hd_rev_last.
  unfold frame_of.
  destruct (stats_reversed (map round_g (sorted_keys counts)) _ _ Hlen) as [-> ->].
  f_equal. f_equal.
  rewrite <- (products_ap_terms _ (rev (contam_col counts)) (rev (ref_col counts)))
    by (rewrite !length_rev; exact Hlen).
  unfold diff.
  destruct (running 0 (rev (contam_col counts))) as [|x X]; [reflexivity|].
  cbn [map nth tl zip_with]. rewrite fsub_0_r. reflexivity.
Qed.

(** With a positive total, a row without reads adds the term 0, wherever it
    stands, and leaves the terms of the rows after it as they were. *)
Lemma ap_terms_noop_row total (a b : list (N * N)) : forall tc tr acc,
  (total <> 0)%N ->
  fold_left fadd (ap_terms total (sens total tc) tc tr (a ++ (0%N, 0%N) :: b)) acc
  = fold_left fadd (ap_terms total (sens total tc) tc tr (a ++ b)) acc.
Proof.
  induction a as [|[c r] a IH]; intros tc tr acc Htotal.
  - cbn [app ap_terms fold_left]. rewrite !N.add_0_r.
    destruct (sens_Fin total tc Htotal) as [q ->].
    destruct (nan_to_num_Fin (prec tc tr)) as [p ->].
    rewrite fsub_diag_Fin, fmul_Fin_0, fadd_0_r. reflexivity.
  - cbn [app ap_terms fold_left]. apply IH. exact Htotal.
Qed.

Lemma Nsum_0 l : Nsum l = 0%N -> Forall (eq 0%N) l.
Proof.
  induction l as [|x l IH]; [constructor|].
  rewrite Nsum_cons. intros H. constructor; [lia|]. apply IH. lia.
Qed.

(** With a total of 0 every sensitivity is not-a-number, and so is the
    sum. *)
Lemma ap_terms_total_0 (rows : list (N * N)) prev tr :
  rows <> [] -> Forall (fun row => 0%N = fst row) rows ->
  fsum (ap_terms 0 prev 0 tr rows) = NaN.
Proof.
  intros Hne Hrows. destruct rows as [|[c r] rows]; [congruence|].
  inversion Hrows as [|? ? Hc _]; subst. simpl in Hc. subst c.
  unfold fsum. cbn [ap_terms fold_left]. rewrite N.add_0_r, sens_total_0.
  destruct (nan_to_num_Fin (prec 0 (tr + r))) as [p ->].
  cbn [fsub fadd fmul]. apply fold_fadd_NaN.
Qed.

Lemma Forall_zip_fst (c r : list N) :
  Forall (eq 0%N) c -> Forall (fun row : N * N => 0%N = fst row) (zip c r).
Proof.
  intros Hc. revert r. induction Hc as [|x c Hx _ IH]; intros [|y r]; simpl;
    constructor; auto.
Qed.

(** Where a new key goes in an increasing list. *)
Lemma sorted_insert_position (T : Z) (ks : list Z) :
  StronglySorted Z.lt ks -> T ∉ ks ->
  exists l1 l2, ks = l1 ++ l2 /\ StronglySorted Z.lt (l1 ++ T :: l2).
Proof.
  induction 1 as [|k ks Hs IH Hk]; intros HT.
  - exists [], []. split; [reflexivity|]. repeat constructor.
  - apply not_elem_of_cons in HT as [HTk HT].
    destruct (Z.lt_ge_cases T k) as [Hlt|Hge].
    + exists [], (k :: ks). split; [reflexivity|]. cbn [app].
      constructor; [constructor; assumption|].
      constructor; [exact Hlt|].
      rewrite Forall_forall in *. intros y Hy. specialize (Hk y Hy). lia.
    + destruct (IH HT) as (l1 & l2 & -> & Hsorted).
      exists (k :: l1), l2. split; [reflexivity|]. cbn [app].
      constructor; [exact Hsorted|].
      rewrite Forall_app, Forall_cons. rewrite Forall_app in Hk.
      destruct Hk as [Hk1 Hk2]. repeat split; auto. lia.
Qed.

Lemma StronglySorted_lt_le (l : list Z) :
  StronglySorted Z.lt l -> StronglySorted Z.le l.
Proof.
  induction 1 as [|x l _ IH Hx]; constructor; [exact IH|].
  eapply Forall_impl; [exact Hx|]. intros y Hy. simpl in Hy. lia.
Qed.

(** The sorted keys after a new threshold has been inserted. *)
Lemma sorted_keys_insert (counts : gmap Z counts_rec) (T : Z) (c : counts_rec) :
  counts !! T = None ->
  exists l1 l2,
    sorted_keys counts = l1 ++ l2 /\
    sorted_keys (<[T := c]> counts) = l1 ++ T :: l2 /\
    T ∉ l1 ++ l2.
Proof.
  intros HT.
  assert (Hnotin : T ∉ sorted_keys counts).
  { rewrite sorted_keys_elem. intros [c' Hc']. congruence. }
  destruct (sorted_insert_position T _ (sorted_keys_increasing counts) Hnotin)
    as (l1 & l2 & E & Hsorted).
  exists l1, l2. split; [exact E|]. split; [|rewrite <- E; exact Hnotin].
  apply (StronglySorted_unique Z.le).
  - apply StronglySorted_lt_le, sorted_keys_increasing.
  - apply StronglySorted_lt_le, Hsorted.
  - rewrite sorted_keys_Permutation, map_to_list_insert by exact HT.
    cbn [map fst]. rewrite <- sorted_keys_Permutation, E.
    apply Permutation_middle.
Qed.

Lemma counts_at_insert_ne (counts : gmap Z counts_rec) T c t :
  t <> T -> counts_at (<[T := c]> counts) t = counts_at counts t.
Proof. intros H. unfold counts_at. rewrite lookup_insert_ne by congruence. reflexivity. Qed.

Lemma counts_at_insert (counts : gmap Z counts_rec) T c :
  counts_at (<[T := c]> counts) T = c.
Proof. unfold counts_at. rewrite lookup_insert_eq. reflexivity. Qed.

(** The count columns after a threshold without reads has been inserted:
    a 0 at the same place in both. *)
Lemma columns_insert_noop (counts : gmap Z counts_rec) (T : Z) :
  counts !! T = None ->
  exists c1 c2 r1 r2,
    length c1 = length r1 /\ length c2 = length r2 /\
    contam_col counts = c1 ++ c2 /\ ref_col counts = r1 ++ r2 /\
    contam_col (<[T := mkCounts 0 0]> counts) = c1 ++ 0%N :: c2 /\
    ref_col (<[T := mkCounts 0 0]> counts) = r1 ++ 0%N :: r2.
Proof.
  intros HT.
  destruct (sorted_keys_insert counts T (mkCounts 0 0) HT)
    as (l1 & l2 & E & E' & Hnotin).
  apply not_elem_of_app in Hnotin as [Hn1 Hn2].
  assert (Hext : forall (f : counts_rec -> N) (l : list Z), T ∉ l ->
            map (fun t => round_3g (f (counts_at (<[T := mkCounts 0 0]> counts) t))) l
            = map (fun t => round_3g (f (counts_at counts t))) l).
  { intros f l Hl. apply map_ext_in. intros t Ht.
    rewrite counts_at_insert_ne; [reflexivity|].
    intros ->. apply Hl, list_elem_of_In, Ht. }
  exists (map (fun t => round_3g (CONTAM (counts_at counts t))) l1),
         (map (fun t => round_3g (CONTAM (counts_at counts t))) l2),
         (map (fun t => round_3g (REF (counts_at counts t))) l1),
         (map (fun t => round_3g (REF (counts_at counts t))) l2).
  unfold contam_col, ref_col. rewrite E, E', !map_app. cbn [map].
  rewrite counts_at_insert, !Hext by assumption.
  rewrite !length_map. repeat split.
Qed.

Lemma rows_reversed_insert (c1 c2 r1 r2 : list N) :
  length c1 = length r1 -> length c2 = length r2 ->
  zip (rev (c1 ++ 0%N :: c2)) (rev (r1 ++ 0%N :: r2))
  = zip (rev c2) (rev r2) ++ (0%N, 0%N) :: zip (rev c1) (rev r1).
Proof.
  intros H1 H2. rewrite !rev_app_distr. cbn [rev]. rewrite <- !app_assoc.
  rewrite zip_with_app by (rewrite !length_rev; exact H2). reflexivity.
Qed.

Lemma rows_reversed (c1 c2 r1 r2 : list N) :
  length c1 = length r1 -> length c2 = length r2 ->
  zip (rev (c1 ++ c2)) (rev (r1 ++ r2))
  = zip (rev c2) (rev r2) ++ zip (rev c1) (rev r1).
Proof.
  intros H1 H2. rewrite !rev_app_distr.
  rewrite zip_with_app by (rewrite !length_rev; exact H2). reflexivity.
Qed.

Lemma representable_insert_noop (counts : gmap Z counts_rec) (T : Z) :
  representable counts -> Z.abs T < 2 ^ 53 ->
  representable (<[T := mkCounts 0 0]> counts).
Proof.
  intros Hrep HT. apply map_Forall_insert_2; [|exact Hrep].
  split; [exact HT|]. split; reflexivity.
Qed.

(** C9, as stated for every mapping, fails on the empty one: there
    [write_table] raises and no average precision exists, while after the
    insertion of a threshold without reads the table has one row and the
    average precision is not-a-number. *)
Lemma average_precision_noop_row_on_empty :
  average_precision_of ∅ = Raise ValueError /\
  average_precision_of (<[0 := mkCounts 0 0]> ∅) = Ok NaN.
Proof. split; vm_compute; reflexivity. Qed.

(** C9 (amended): for a non-empty mapping whose thresholds and counts are
    below [2^53] in absolute value, adding a threshold of that size that is
    not yet in it, with [REF = 0] and [CONTAM = 0], leaves the average
    precision of the table as it was: both tables are built and both
    average precisions are the same number (in exact arithmetic;
    not-a-number in both when there is no contaminant read at all). *)
Theorem average_precision_noop_row (counts : gmap Z counts_rec) (T : Z) :
  counts <> ∅ -> counts !! T = None ->
  representable counts -> Z.abs T < 2 ^ 53 ->
  exists p_a,
    average_precision_of counts = Ok p_a /\
    average_precision_of (<[T := mkCounts 0 0]> counts) = Ok p_a.
Proof.
  intros Hne HT Hrep HTb.
  rewrite (average_precision_of_terms counts Hne Hrep).
  rewrite (average_precision_of_terms _ (insert_non_empty counts T (mkCounts 0 0))
             (representable_insert_noop counts T Hrep HTb)).
  eexists. split; [reflexivity|]. f_equal.
  destruct (columns_insert_noop counts T HT)
    as (c1 & c2 & r1 & r2 & H1 & H2 & Ec & Er & Ec' & Er').
  rewrite Ec, Er, Ec', Er'.
  rewrite (rows_reversed_insert _ _ _ _ H1 H2), (rows_reversed _ _ _ _ H1 H2).
  assert (Htot : Nsum (c1 ++ 0%N :: c2) = Nsum (c1 ++ c2)).
  { rewrite !Nsum_app, Nsum_cons. lia. }
  rewrite Htot.
  destruct (N.eq_dec (Nsum (c1 ++ c2)) 0%N) as [Hz|Hnz].
  - rewrite Hz.
    assert (Hall : Forall (eq 0%N) (c1 ++ c2)) by (apply Nsum_0, Hz).
    apply Forall_app in Hall as [Ha1 Ha2].
    rewrite !ap_terms_total_0; [reflexivity| | | |].
    + assert (Hlen : length (contam_col counts) = length (sorted_keys counts))
        by (unfold contam_col; apply length_map).
      pose proof (sorted_keys_nonempty counts Hne) as Hk.
      rewrite Ec in Hlen. intros E. apply Hk.
      apply (f_equal length) in E.
      rewrite length_app, !length_zip_with, !length_rev in E.
      rewrite length_app in Hlen.
      destruct (sorted_keys counts); [reflexivity|]. simpl in Hlen, E. lia.
    + apply Forall_app. split; apply Forall_zip_fst, Forall_rev; assumption.
    + destruct (zip (rev c2) (rev r2)); discriminate.
    + apply Forall_app. split; [apply Forall_zip_fst, Forall_rev; assumption|].
      constructor; [reflexivity|]. apply Forall_zip_fst, Forall_rev; assumption.
  - rewrite <- (sens_0 _ Hnz). unfold fsum.
    apply ap_terms_noop_row. exact Hnz.
Qed.

Lemma average_precision_noop_row_witness :
  exists p_a,
    average_precision_of ex_counts = Ok p_a /\
    average_precision_of (<[5 := mkCounts 0 0]> ex_counts) = Ok p_a.
Proof.
  apply (average_precision_noop_row ex_counts 5).
  - apply insert_non_empty.
  - reflexivity.
  - unfold ex_counts. solve_representable.
  - reflexivity.
Defined.

Example ex_average_precision_noop :
  exists v w,
    average_precision_of ex_counts = Ok v /\
    average_precision_of (<[-3 := mkCounts 0 0]> ex_counts) = Ok w /\
    feqb v (frac 9 13) = true /\ feqb w (frac 9 13) = true.
Proof. do 2 eexists. repeat split; vm_compute; reflexivity. Qed.

(** * Further properties of [CigarScorer] *)

(** ** Clip offsets and aligned length *)

(** X1: [get_clipped_offset] looks at the first and the last operation
    only. With at least two operations the offsets are the soft-clip
    lengths of the first and of the last, whatever lies between; a single
    operation is both first and last, so one soft clip gives both offsets;
    no operation gives [(0, 0)]. *)
Theorem clipped_offset_first_last :
  forall (a b : Z * Z) (mid : list (Z * Z)),
    get_clipped_offset (a :: mid ++ [b]) = (soft_clip a, soft_clip b)
    /\ get_clipped_offset [a] = (soft_clip a, soft_clip a)
    /\ get_clipped_offset [] = (0, 0).
Proof.
  intros a b mid. split; [|split; reflexivity].
  unfold get_clipped_offset, soft_clip.
  change (a :: mid ++ [b]) with ((a :: mid) ++ [b]).
  rewrite last_last. reflexivity.
Qed.

Lemma aligned_length_acc ctups : forall i,
  fold_left
    (fun i c =>
       if (fst c =? 0) || ((2 <=? fst c) && (fst c <=? 3))
          || ((7 <=? fst c) && (fst c <=? 8))
       then i + snd c else i) ctups i
  = i + Zsum (map reference_span ctups).
Proof.
  induction ctups as [|c ctups IH]; intros i; cbn [fold_left map Zsum fold_right].
  - lia.
  - rewrite IH. unfold reference_span at 2, Zsum.
    destruct ((fst c =? 0) || ((2 <=? fst c) && (fst c <=? 3))
              || ((7 <=? fst c) && (fst c <=? 8))); lia.
Qed.

Lemma aligned_length_sum ctups :
  get_aligned_length ctups = Zsum (map reference_span ctups).
Proof. unfold get_aligned_length. rewrite aligned_length_acc. lia. Qed.

Lemma Zsum_app l1 l2 : Zsum (l1 ++ l2) = Zsum l1 + Zsum l2.
Proof.
  unfold Zsum. induction l1 as [|x l1 IH]; simpl; [reflexivity|]. rewrite IH. lia.
Qed.

(** X2: on operations of the ten kinds, [get_aligned_length] is the total
    length of the operations that consume the reference ([M], [D], [N],
    [=], [X]); insertions, clips, pads and [B] add nothing. *)
Theorem aligned_length_reference_kinds :
  forall ops : list (CigarOperation * Z),
    get_aligned_length (map (fun op => (kind_code (fst op), snd op)) ops)
    = Zsum (map (fun op => if consumes_reference (fst op) then snd op else 0) ops).
Proof.
  intros ops. rewrite aligned_length_sum, map_map. f_equal.
  apply map_ext. intros [k L]. destruct k; reflexivity.
Qed.

(** X3: the aligned length of two sequences joined is the sum of their
    aligned lengths. *)
Theorem aligned_length_app :
  forall l1 l2 : list (Z * Z),
    get_aligned_length (l1 ++ l2) = get_aligned_length l1 + get_aligned_length l2.
Proof.
  intros l1 l2. rewrite !aligned_length_sum, map_app, Zsum_app. reflexivity.
Qed.

(** ** What decoding returns *)

Lemma rmap_Forall {A B} (f : A -> result B) (P : A -> Prop) (Q : B -> Prop) l :
  (forall x, P x -> exists y, f x = Ok y /\ Q y) -> Forall P l ->
  exists ys, rmap f l = Ok ys /\ Forall Q ys.
Proof.
  intros Hf. induction 1 as [|x l Hx _ (ys & IH & HQ)]; simpl.
  - exists []. split; [reflexivity|constructor].
  - destruct (Hf x Hx) as (y & -> & Hy). rewrite IH. simpl.
    exists (y :: ys). split; [reflexivity|constructor; assumption].
Qed.

Lemma int_value_nonneg x : forall acc,
  forallb is_digit x = true -> 0 <= acc ->
  0 <= fold_left (fun acc c => 10 * acc + digit_value c) x acc.
Proof.
  induction x as [|c x IH]; intros acc Hx Hacc; simpl; [exact Hacc|].
  simpl in Hx. apply andb_true_iff in Hx as [Hc Hx].
  apply IH; [exact Hx|].
  destruct (digit_char_value c Hc) as (n & -> & _). lia.
Qed.

Lemma decode_invariant (s : str) :
  short_digit_runs s ->
  exists tups,
    cigarstring_to_tuples s = Ok tups /\
    Forall (fun c => known_code (fst c) = true /\ 0 <= snd c) tups.
Proof.
  intros Hs. unfold cigarstring_to_tuples.
  eapply rmap_Forall; [|apply findall_CIGAR_short_parts, Hs].
  intros [x y] (Hx & Hl & Hy). simpl in *.
  destruct (op_letter_code _ Hy) as (code & -> & Hk & _).
  rewrite (int_digits _ Hx Hl). simpl. eexists. split; [reflexivity|].
  split; [exact Hk|]. simpl. apply int_value_nonneg; [apply Hx|lia].
Qed.

(** X4: on a string whose runs of digits have at most 4300 digits,
    [cigarstring_to_tuples] returns, and every operation that it returns
    has a code from 0 to 9 and a length that is not negative. *)
Theorem decoded_codes_and_lengths :
  forall s : str,
    short_digit_runs s ->
    exists tups,
      cigarstring_to_tuples s = Ok tups /\
      Forall (fun c => known_code (fst c) = true /\ 0 <= snd c) tups.
Proof. exact decode_invariant. Qed.

Lemma decoded_codes_and_lengths_witness :
  exists tups,
    cigarstring_to_tuples (lit "12M?3x5D") = Ok tups /\
    Forall (fun c => known_code (fst c) = true /\ 0 <= snd c) tups.
Proof.
  apply (decoded_codes_and_lengths (lit "12M?3x5D")). vm_compute. reflexivity.
Defined.

(** ** Scoring without warnings *)

(** The score of a loop does not depend on the warnings, and the state
    after it does not depend on the score before it. *)
Lemma score_fold_acc ctups : forall self acc,
  fold_left score_step ctups (self, acc)
  = (fst (fold_left score_step ctups (self, 0)),
     acc + Zsum (map tuple_score ctups)).
Proof.
  induction ctups as [|c ctups IH]; intros self acc; cbn [fold_left map].
  - simpl. f_equal. lia.
  - assert (E : score_step (self, acc) c
                = (fst (score_step (self, 0) c), acc + tuple_score c)).
    { unfold score_step, tuple_score.
      destruct (_cigar_score (fst c)); [simpl; f_equal; lia|].
      destruct (decide (fst c ∈ cig_warned self)); simpl; f_equal; lia. }
    rewrite E, IH.
    assert (E0 : score_step (self, 0) c
                 = (fst (score_step (self, 0) c), 0 + tuple_score c)).
    { unfold score_step, tuple_score.
      destruct (_cigar_score (fst c)); [simpl; f_equal|].
      destruct (decide (fst c ∈ cig_warned self)); simpl; f_equal. }
    rewrite E0 at 2. rewrite (IH _ (0 + tuple_score c)).
    cbn [fst Zsum fold_right]. f_equal. unfold Zsum. lia.
Qed.

(** Tuples whose unknown codes have all been warned about leave the
    instance as it is. *)
Lemma score_settled ctups : forall self acc,
  (forall c, c ∈ ctups -> known_code (fst c) = false -> fst c ∈ cig_warned self) ->
  fold_left score_step ctups (self, acc)
  = (self, acc + Zsum (map tuple_score ctups)).
Proof.
  induction ctups as [|c ctups IH]; intros self acc H; cbn [fold_left map].
  - simpl. f_equal. lia.
  - assert (E : score_step (self, acc) c = (self, acc + tuple_score c)).
    { unfold score_step, tuple_score.
      destruct (_cigar_score (fst c)) eqn:Hf; [reflexivity|].
      apply cigar_score_unknown in Hf.
      rewrite decide_True by (apply H; [left|exact Hf]). f_equal. lia. }
    rewrite E, IH by (intros c' Hc'; apply H; right; exact Hc').
    cbn [Zsum fold_right]. f_equal. unfold Zsum. lia.
Qed.

Lemma score_cigarstring_settled (self : CigarScorer) (cigar : str) :
  short_digit_runs cigar ->
  exists tups,
    cigarstring_to_tuples cigar = Ok tups /\
    Forall (fun c => known_code (fst c) = true /\ 0 <= snd c) tups /\
    score_cigarstring self cigar = Ok (self, Zsum (map tuple_score tups)).
Proof.
  intros Hs. destruct (decode_invariant cigar Hs) as (tups & Hdec & Hall).
  exists tups. split; [exact Hdec|]. split; [exact Hall|].
  unfold score_cigarstring, score_cigartuples. rewrite Hdec. cbn [rbind].
  rewrite score_settled; [reflexivity|].
  intros c Hc Hunknown. rewrite Forall_forall in Hall.
  destruct (Hall c Hc) as [Hk _]. congruence.
Qed.

(** X5: scoring a CIGAR string never warns. Whatever the state of the
    instance, on a string whose runs of digits have at most 4300 digits
    [score_cigarstring] returns, leaves the instance as it was, and the
    score is the sum of the table's contributions of the decoded
    operations. *)
Theorem score_cigarstring_no_warning :
  forall (self : CigarScorer) (cigar : str),
    short_digit_runs cigar ->
    exists tups,
      cigarstring_to_tuples cigar = Ok tups /\
      score_cigarstring self cigar = Ok (self, Zsum (map tuple_score tups)).
Proof.
  intros self cigar Hs.
  destruct (score_cigarstring_settled self cigar Hs) as (tups & Hdec & _ & Hscore).
  exists tups. split; assumption.
Qed.

Lemma score_cigarstring_no_warning_witness :
  exists tups,
    cigarstring_to_tuples (lit "2S10M1I4M") = Ok tups /\
    score_cigarstring init (lit "2S10M1I4M")
    = Ok (init, Zsum (map tuple_score tups)).
Proof.
  apply (score_cigarstring_no_warning init (lit "2S10M1I4M")).
  vm_compute. reflexivity.
Defined.

Lemma tuple_score_le_span c :
  known_code (fst c) = true -> 0 <= snd c -> tuple_score c <= reference_span c.
Proof.
  destruct c as [code L]. unfold known_code, tuple_score, reference_span.
  cbn [fst snd]. intros Hk HL. apply andb_true_iff in Hk as [H0 H9].
  apply Z.leb_le in H0, H9.
  assert (Hc : code = 0 \/ code = 1 \/ code = 2 \/ code = 3 \/ code = 4 \/
               code = 5 \/ code = 6 \/ code = 7 \/ code = 8 \/ code = 9) by lia.
  repeat (destruct Hc as [-> | Hc]; [simpl; lia|]). subst. simpl. lia.
Qed.

(** X6: the score of a CIGAR string whose runs of digits have at most 4300
    digits never exceeds its aligned reference length. *)
Theorem score_at_most_aligned_length :
  forall (self : CigarScorer) (cigar : str),
    short_digit_runs cigar ->
    exists tups self' score,
      cigarstring_to_tuples cigar = Ok tups /\
      score_cigarstring self cigar = Ok (self', score) /\
      score <= get_aligned_length tups.
Proof.
  intros self cigar Hs.
  destruct (score_cigarstring_settled self cigar Hs) as (tups & Hdec & Hall & Hscore).
  exists tups, self, (Zsum (map tuple_score tups)).
  split; [exact Hdec|]. split; [exact Hscore|].
  rewrite aligned_length_sum. clear Hdec Hscore.
  induction Hall as [|c tups [Hk HL] _ IH]; [reflexivity|].
  cbn [map Zsum fold_right]. pose proof (tuple_score_le_span c Hk HL).
  unfold Zsum in IH. lia.
Qed.

Lemma score_at_most_aligned_length_witness :
  exists tups self' score,
    cigarstring_to_tuples (lit "3M2D5M1X") = Ok tups /\
    score_cigarstring init (lit "3M2D5M1X") = Ok (self', score) /\
    score <= get_aligned_length tups.
Proof.
  apply (score_at_most_aligned_length init (lit "3M2D5M1X")).
  vm_compute. reflexivity.
Defined.

(** ** Scoring in pieces, and scoring again *)

(** X7: scoring a sequence in two pieces on one instance, the second piece
    after the first, gives the instance and the total score of scoring the
    whole at once. *)
Theorem score_cigartuples_app :
  forall (self : CigarScorer) (l1 l2 : list (Z * Z)),
    score_cigartuples self (l1 ++ l2)
    = (fst (score_cigartuples (fst (score_cigartuples self l1)) l2),
       snd (score_cigartuples self l1)
       + snd (score_cigartuples (fst (score_cigartuples self l1)) l2)).
Proof.
  intros self l1 l2. unfold score_cigartuples. rewrite fold_left_app.
  destruct (fold_left score_step l1 (self, 0)) as [self1 x]. cbn [fst snd].
  rewrite (score_fold_acc l2 self1 x). f_equal.
  pose proof (score_fold_acc l2 self1 0) as E.
  apply (f_equal snd) in E. cbn [snd] in E. lia.
Qed.

(** After a loop every unknown code of its tuples is in [cig_warned], with
    what was there before. *)
Lemma score_fold_warned ctups : forall self acc code,
  code ∈ cig_warned (fst (fold_left score_step ctups (self, acc))) <->
  code ∈ cig_warned self \/ (occurs code ctups = true /\ known_code code = false).
Proof.
  induction ctups as [|c ctups IH]; intros self acc code; cbn [fold_left].
  - simpl. split; [auto|]. intros [H|[H _]]; [exact H|discriminate].
  - destruct (score_step (self, acc) c) as [self1 acc1] eqn:E.
    rewrite IH. cbn [occurs existsb]. rewrite orb_true_iff, Z.eqb_eq.
    assert (Hstep : code ∈ cig_warned self1 <->
                    code ∈ cig_warned self \/
                    (fst c = code /\ known_code code = false)).
    { unfold score_step in E.
      destruct (_cigar_score (fst c)) eqn:Hf.
      - injection E as <- _. split; [auto|]. intros [H|[<- H]]; [exact H|].
        apply cigar_score_unknown in H. congruence.
      - apply cigar_score_unknown in Hf.
        destruct (decide (fst c ∈ cig_warned self)) as [Hin|Hnotin].
        + injection E as <- _. split; [auto|]. intros [H|[<- _]]; assumption.
        + injection E as <- _. cbn [cig_warned].
          rewrite elem_of_union, elem_of_singleton.
          split; [intros [->|H]; auto|intros [H|[<- _]]; auto]. }
    rewrite Hstep. unfold occurs. tauto.
Qed.

(** X8: scoring the same tuples a second time on the instance logs nothing
    more: the second call leaves the instance as the first call left it and
    returns the same score. *)
Theorem score_again_is_silent :
  forall (self : CigarScorer) (ctups : list (Z * Z)),
    score_cigartuples (fst (score_cigartuples self ctups)) ctups
    = (fst (score_cigartuples self ctups), snd (score_cigartuples self ctups)).
Proof.
  intros self ctups. unfold score_cigartuples.
  rewrite score_settled.
  - rewrite (score_fold_acc ctups self 0). reflexivity.
  - intros c Hc Hunknown. apply score_fold_warned. right.
    split; [|exact Hunknown]. unfold occurs. apply existsb_exists.
    exists c. split; [apply list_elem_of_In; exact Hc|apply Z.eqb_refl].
Qed.

(** ** Encoding, then decoding *)

Lemma digit_char_digit n :
  (n < 10)%N -> is_digit (digit_char n) = true /\ digit_value (digit_char n) = Z.of_N n.
Proof.
  intros H. destruct n as [|p]; [split; reflexivity|].
  do 4 (destruct p as [p|p|]; try lia; try (split; reflexivity)).
Qed.

Lemma decimal_fuel_value f : forall n,
  (N.to_nat (N.log2 n) < f)%nat ->
  digits (decimal_fuel f n) /\
  fold_left (fun acc c => 10 * acc + digit_value c) (decimal_fuel f n) 0 = Z.of_N n.
Proof.
  induction f as [|f IH]; intros n Hf; [lia|]. cbn [decimal_fuel].
  destruct (N.ltb_spec n 10) as [Hlt|Hge].
  - destruct (digit_char_digit n Hlt) as [Hd Hv].
    split; [split; [discriminate|simpl; rewrite Hd; reflexivity]|].
    simpl. rewrite Hv. lia.
  - pose proof (log2_div10 n Hge) as Hlog.
    destruct (IH (n / 10)%N ltac:(lia)) as [[Hne Hds] Hval].
    assert (Hm : (n mod 10 < 10)%N) by (apply N.mod_lt; lia).
    destruct (digit_char_digit _ Hm) as [Hd Hv].
    split.
    + split; [intros E; apply app_eq_nil in E as [_ E]; discriminate|].
      rewrite forallb_app, Hds. simpl. rewrite Hd. reflexivity.
    + rewrite fold_left_app, Hval. simpl. rewrite Hv.
      pose proof (N.div_mod n 10 ltac:(lia)). lia.
Qed.

(** A number below [10^k] has at most [k] decimal digits. *)
Lemma decimal_fuel_length f : forall n k,
  (0 < k)%nat -> (n < 10 ^ N.of_nat k)%N ->
  (length (decimal_fuel f n) <= k)%nat.
Proof.
  induction f as [|f IH]; intros n k Hk Hn; cbn [decimal_fuel]; [simpl; lia|].
  destruct (N.ltb_spec n 10) as [Hlt|Hge]; [simpl; lia|].
  rewrite length_app. cbn [length].
  destruct k as [|[|k]]; [lia|simpl in Hn; lia|].
  assert (Hq : (n / 10 < 10 ^ N.of_nat (S k))%N).
  { apply N.Div0.div_lt_upper_bound.
    rewrite <- N.pow_succ_r', <- Nat2N.inj_succ. exact Hn. }
  specialize (IH (n / 10)%N (S k) ltac:(lia) Hq). lia.
Qed.

Lemma decimal_value n :
  (n < 10 ^ int_max_str_digits)%N ->
  digits (decimal n) /\ int (decimal n) = Ok (Z.of_N n).
Proof.
  intros Hn.
  destruct (decimal_fuel_value (S (N.to_nat (N.log2 n))) n ltac:(lia)) as [Hd Hv].
  fold (decimal n) in Hd, Hv. split; [exact Hd|].
  rewrite (int_digits _ Hd), Hv; [reflexivity|].
  pose proof (decimal_fuel_length (S (N.to_nat (N.log2 n))) n
                (N.to_nat int_max_str_digits)) as Hlen.
  fold (decimal n) in Hlen. rewrite N2Nat.id in Hlen.
  assert (0 < N.to_nat int_max_str_digits)%nat by (vm_compute; lia).
  specialize (Hlen ltac:(assumption) Hn).
  lia.
Qed.

Lemma op_letter_known code :
  known_code code = true ->
  is_op_letter (op_letter code) = true /\ CIGAR2CODE (op_letter code) = Ok code.
Proof.
  unfold known_code. intros Hk. apply andb_true_iff in Hk as [H0 H9].
  apply Z.leb_le in H0, H9.
  assert (Hc : code = 0 \/ code = 1 \/ code = 2 \/ code = 3 \/ code = 4 \/
               code = 5 \/ code = 6 \/ code = 7 \/ code = 8 \/ code = 9) by lia.
  repeat (destruct Hc as [-> | Hc]; [split; reflexivity|]). subst. split; reflexivity.
Qed.

(** X9: writing operations out and decoding the text gives the operations
    back: for every list of tuples with codes from 0 to 9 and lengths that
    are not negative and below [10^4300] (numerals of at most 4300 digits,
    the most that [int] converts), [cigarstring_to_tuples] returns that
    list on its encoding (each length in decimal followed by the letter of
    the code). *)
Theorem encode_decode_roundtrip (tups : list (Z * Z)) :
  Forall (fun c => known_code (fst c) = true /\
                   0 <= snd c < 10 ^ Z.of_N int_max_str_digits) tups ->
  cigarstring_to_tuples (encode tups) = Ok tups.
Proof.
  induction 1 as [|[code n] tups [Hk [Hn Hb]] _ IH]; [reflexivity|].
  cbn [fst snd] in *. unfold cigarstring_to_tuples in *.
  cbn [encode map concat]. fold (encode tups). rewrite <- app_assoc.
  assert (Hb' : (Z.to_N n < 10 ^ int_max_str_digits)%N).
  { apply N2Z.inj_lt. rewrite Z2N.id, N2Z.inj_pow by exact Hn. exact Hb. }
  destruct (decimal_value (Z.to_N n) Hb') as [Hd Hint].
  destruct (op_letter_known code Hk) as [Hop Hcode].
  cbn [app]. rewrite findall_CIGAR_token by assumption.
  cbn [rmap rbind]. rewrite Hcode. cbn [rbind]. rewrite Hint. cbn [rbind].
  rewrite IH. cbn [rbind]. rewrite Z2N.id by exact Hn. reflexivity.
Qed.

Lemma encode_decode_roundtrip_witness :
  cigarstring_to_tuples (encode [(4, 10); (0, 0); (9, 120)])
  = Ok [(4, 10); (0, 0); (9, 120)].
Proof.
  apply (encode_decode_roundtrip [(4, 10); (0, 0); (9, 120)]).
  repeat (constructor;
          [split; [reflexivity|split; [discriminate|vm_compute; reflexivity]]|]).
  constructor.
Defined.

(** ** More on [md_mismatches] *)

Lemma md_unmarked s : md_mismatches s = unmarked_letters false s.
Proof.
  unfold md_mismatches. rewrite md_fold_weights, md_weights_unmarked. lia.
Qed.

Lemma letters_cons c s :
  letters (c :: s) = (if is_ascii_letter c then 1 else 0) + letters s.
Proof.
  unfold letters. cbn [List.filter]. destruct (is_ascii_letter c); cbn [length]; lia.
Qed.

Lemma unmarked_letters_bounds s : forall b,
  0 <= unmarked_letters b s <= letters s.
Proof.
  induction s as [|c s IH]; intros b; [unfold letters; simpl; lia|].
  cbn [unmarked_letters]. rewrite letters_cons.
  specialize (IH (Ascii.eqb c "^"%char)).
  destruct (is_ascii_letter c), b; simpl; lia.
Qed.

Lemma unmarked_letters_no_caret s :
  forallb (fun c => negb (Ascii.eqb c "^"%char)) s = true ->
  unmarked_letters false s = letters s.
Proof.
  induction s as [|c s IH]; [reflexivity|]. cbn [forallb unmarked_letters].
  intros H. apply andb_true_iff in H as [Hc Hs]. apply negb_true_iff in Hc.
  rewrite Hc, letters_cons, (IH Hs). destruct (is_ascii_letter c); reflexivity.
Qed.

(** X10: [md_mismatches] is never negative and never more than the number
    of ASCII letters of the tag; for a tag without a caret it is exactly
    that number. *)
Theorem md_mismatches_letters :
  forall md_tag : str,
    0 <= md_mismatches md_tag <= letters md_tag
    /\ (forallb (fun c => negb (Ascii.eqb c "^"%char)) md_tag = true ->
        md_mismatches md_tag = letters md_tag).
Proof.
  intros md_tag. rewrite md_unmarked. split.
  - apply unmarked_letters_bounds.
  - apply unmarked_letters_no_caret.
Qed.

Lemma md_mismatches_letters_witness :
  md_mismatches (lit "10A5TC3") = letters (lit "10A5TC3").
Proof.
  apply (md_mismatches_letters (lit "10A5TC3")). reflexivity.
Defined.

Lemma unmarked_letters_app pre : forall b s,
  unmarked_letters b (pre ++ s)
  = unmarked_letters b pre
    + unmarked_letters
        (match pre with
         | [] => b
         | _ => Ascii.eqb (List.last pre " "%char) "^"%char
         end) s.
Proof.
  induction pre as [|c pre IH]; intros b s; [simpl; lia|].
  cbn [app unmarked_letters]. rewrite IH.
  destruct pre as [|c' pre]; [simpl; lia|].
  change (List.last (c :: c' :: pre) " "%char)
    with (List.last (c' :: pre) " "%char). lia.
Qed.

(** X11: a tag can be counted in two parts, provided the first part does
    not end with a caret: the count of the whole is the sum of the counts
    of the parts. *)
Theorem md_mismatches_app (pre s : str) :
  Ascii.eqb (List.last pre " "%char) "^"%char = false ->
  md_mismatches (pre ++ s) = md_mismatches pre + md_mismatches s.
Proof.
  intros H. rewrite !md_unmarked, unmarked_letters_app.
  destruct pre; [reflexivity|]. rewrite H. reflexivity.
Qed.

Lemma md_mismatches_app_witness :
  md_mismatches (lit "10A5^AC" ++ lit "3T")
  = md_mismatches (lit "10A5^AC") + md_mismatches (lit "3T").
Proof. apply (md_mismatches_app (lit "10A5^AC") (lit "3T")). reflexivity. Defined.

(** X12: a deletion is counted one short. Where a caret is followed by a
    run of [k >= 1] letters, the caret takes the first letter with it and
    the count gets [k - 1] for the run, whatever comes before (not ending
    with a caret) and after. *)
Theorem md_mismatches_deletion (pre run rest : str) :
  Ascii.eqb (List.last pre " "%char) "^"%char = false ->
  letter_run run ->
  md_mismatches (pre ++ "^"%char :: run ++ rest)
  = md_mismatches pre + (Z.of_nat (length run) - 1) + md_mismatches rest.
Proof.
  intros Hpre [Hne Hrun].
  assert (E : unmarked_letters false ("^"%char :: run ++ rest)
              = Z.of_nat (length run) - 1 + unmarked_letters false rest).
  { destruct run as [|l run]; [congruence|].
    simpl in Hrun. apply andb_true_iff in Hrun as [Hl Hrun].
    cbn [app unmarked_letters]. rewrite Hl.
    destruct (letter_not_caret l Hl) as [-> _].
    rewrite (unmarked_letters_run run rest Hrun). cbn [length].
    change (is_ascii_letter "^"%char) with false. simpl andb.
    change (Ascii.eqb "^"%char "^"%char) with true. simpl negb. lia. }
  destruct pre as [|c pre].
  - cbn [app]. rewrite !md_unmarked, E. change (unmarked_letters false []) with 0. lia.
  - rewrite !md_unmarked, unmarked_letters_app, Hpre, E. lia.
Qed.

Lemma md_mismatches_deletion_witness :
  md_mismatches (lit "10A5" ++ "^"%char :: lit "ACG" ++ lit "3")
  = md_mismatches (lit "10A5") + (Z.of_nat (length (lit "ACG")) - 1)
    + md_mismatches (lit "3").
Proof.
  apply (md_mismatches_deletion (lit "10A5") (lit "ACG") (lit "3")).
  - reflexivity.
  - split; [discriminate|reflexivity].
Defined.

(** * Further properties of the benchmark statistics *)

(** ** The shape of the table *)

Lemma round_sig_small p n : (n < 10 ^ p)%N -> round_sig p n = n.
Proof.
  intros H. unfold round_sig.
  assert (Hu : scale_fuel (N.to_nat (N.size n)) (10 ^ p) n 1 = 1%N).
  { destruct (N.to_nat (N.size n)); [reflexivity|]. cbn [scale_fuel].
    rewrite N.mul_1_r. destruct (N.ltb_spec n (10 ^ p)); [reflexivity|lia]. }
  rewrite Hu. unfold round_half_even.
  rewrite N.mod_1_r, N.div_1_r. simpl. lia.
Qed.

(** A threshold of at most six digits is printed exactly. *)
Lemma round_g_small t : Z.abs t < 1000000 -> round_g t = t.
Proof.
  intros H. unfold round_g. rewrite round_sig_small.
  - rewrite N2Z.inj_abs_N. lia.
  - change (10 ^ 6)%N with 1000000%N. lia.
Qed.

Lemma length_sorted_keys (counts : gmap Z counts_rec) :
  length (sorted_keys counts) = size counts.
Proof.
  rewrite (Permutation_length (sorted_keys_Permutation counts)), length_map.
  apply length_map_to_list.
Qed.

(** X13: for a non-empty mapping whose thresholds and counts are below
    [2^53] in absolute value, and an open file, [write_table] returns a
    table with one row for each threshold of the mapping, the thresholds in
    strictly increasing order, all columns of that one length; it writes
    that table to the file, once, and closes the file. Thresholds of at most
    six digits appear in the [Threshold] column as they are. *)
Theorem write_table_rows (counts : gmap Z counts_rec) (fh : file) :
  counts <> ∅ -> closed fh = false -> representable counts ->
  exists df,
    write_table counts fh
    = (Ok df, {| written := written fh ++ [df]; closed := true |})
    /\ rectangular df
    /\ length (df_Threshold df) = size counts
    /\ df_Threshold df = map round_g (sorted_keys counts)
    /\ StronglySorted Z.lt (sorted_keys counts)
    /\ (forall t, t ∈ sorted_keys counts <-> is_Some (counts !! t))
    /\ ((forall t, is_Some (counts !! t) -> Z.abs t < 1000000) ->
        df_Threshold df = sorted_keys counts).
Proof.
  intros Hne Hopen Hrep. exists (frame_of counts).
  split; [apply write_table_frame; assumption|].
  split; [apply frame_rectangular|].
  split; [rewrite frame_Threshold, length_map; apply length_sorted_keys|].
  split; [apply frame_Threshold|].
  split; [apply sorted_keys_increasing|].
  split; [intros t; rewrite sorted_keys_elem; reflexivity|].
  intros Hsmall. rewrite frame_Threshold.
  rewrite <- (map_id (sorted_keys counts)) at 2. apply map_ext_in.
  intros t Ht. apply round_g_small, Hsmall.
  apply sorted_keys_elem, list_elem_of_In, Ht.
Qed.

Lemma write_table_rows_witness :
  exists df,
    write_table ex_counts fresh_file
    = (Ok df, {| written := written fresh_file ++ [df]; closed := true |})
    /\ rectangular df
    /\ length (df_Threshold df) = size ex_counts
    /\ df_Threshold df = sorted_keys ex_counts.
Proof.
  destruct (write_table_rows ex_counts fresh_file) as (df & H1 & H2 & H3 & _ & _ & _ & H4).
  - apply insert_non_empty.
  - reflexivity.
  - unfold ex_counts. solve_representable.
  - exists df. split; [exact H1|]. split; [exact H2|]. split; [exact H3|].
    apply H4. intros t [c Hc]. unfold ex_counts in Hc.
    apply lookup_insert_Some in Hc as [[<- _]|[_ Hc]]; [reflexivity|].
    apply lookup_insert_Some in Hc as [[<- _]|[_ Hc]]; [reflexivity|].
    rewrite lookup_empty in Hc. discriminate.
Defined.

(** ** The F1 column *)

Lemma of_Z_1 : of_Z 1 = Fin 1%Qc.
Proof. unfold of_Z. f_equal; try (apply Qc_is_canon; reflexivity). Qed.

Lemma fmul_1_l a : fmul (Fin 1%Qc) a = a.
Proof. destruct a; try reflexivity. simpl. f_equal. ring. Qed.

Lemma fbeta_1 p s :
  calculate_fbeta_score p s (of_Z 1)
  = fdiv (fmul (fmul (of_Z 2) p) s) (fadd p s).
Proof.
  unfold calculate_fbeta_score. rewrite !of_Z_1, !fmul_1_l.
  replace (fadd (Fin 1%Qc) (Fin 1%Qc)) with (of_Z 2); [reflexivity|].
  unfold of_Z. simpl. f_equal; try (apply Qc_is_canon; reflexivity).
Qed.

(** X14: the [F1] column of the table is [calculate_fbeta_score] at its
    default [beta = 1], row by row, not-a-number rows included. *)
Theorem F1_column_is_fbeta_1 :
  forall (Threshold : list Z) (CONTAMc REFc : list N),
    df_F1 (calculate_stats Threshold CONTAMc REFc)
    = zip_with (fun p s => calculate_fbeta_score p s (of_Z 1))
               (df_Precision (calculate_stats Threshold CONTAMc REFc))
               (df_Sensitivity (calculate_stats Threshold CONTAMc REFc)).
Proof.
  intros Threshold CONTAMc REFc. unfold calculate_stats.
  cbn [df_F1 df_Precision df_Sensitivity].
  apply zip_with_ext; [|reflexivity|reflexivity].
  intros p s. symmetry. apply fbeta_1.
Qed.

(** ** Cumulative counts along the table *)

Lemma suffix_sums_step l : forall i x y,
  suffix_sums l !! i = Some x -> suffix_sums l !! S i = Some y -> (y <= x)%N.
Proof.
  induction l as [|a l IH]; intros i x y Hx Hy; [discriminate|].
  destruct i as [|i].
  - cbn [suffix_sums lookup list_lookup] in Hx, Hy. injection Hx as <-.
    destruct l as [|b l]; [discriminate|].
    cbn [suffix_sums lookup list_lookup] in Hy. injection Hy as <-.
    rewrite (Nsum_cons a). lia.
  - cbn [suffix_sums] in Hx, Hy. apply (IH i); assumption.
Qed.

Lemma suffix_sums_head l x :
  suffix_sums l !! 0%nat = Some x -> x = Nsum l.
Proof. destruct l; [discriminate|]. cbn. congruence. Qed.

Lemma Qc_of_N_nonzero n : (n <> 0)%N -> Qc_of_N n <> 0%Qc.
Proof.
  intros Hn E. pose proof (Qc_sgn_of_Z (Z.of_N n)) as Hs.
  fold (Qc_of_N n) in Hs. rewrite E in Hs. unfold Qc_sgn in Hs. simpl in Hs. lia.
Qed.

Lemma sens_frac total tp :
  (total <> 0)%N -> sens total tp = Fin (Qc_of_N tp / Qc_of_N total)%Qc.
Proof.
  intros H. unfold sens, of_N, of_Z, fdiv. rewrite Qc_sgn_of_Z.
  destruct (Z.eqb_spec (Z.sgn (Z.of_N total)) 0) as [E|_]; [lia|]. reflexivity.
Qed.

Lemma sens_total total : (total <> 0)%N -> sens total total = Fin 1%Qc.
Proof.
  intros H. rewrite (sens_frac _ _ H). f_equal. field. apply Qc_of_N_nonzero, H.
Qed.

(** X15: going up the thresholds the cumulative counts never grow: in the
    table of [write_table] each row's [TP] and [FP] are at most those of
    the row before. The first row, of the lowest threshold, counts
    everything as called positive: its [TP] and [FP] are the column totals,
    so its sensitivity is 1 when the contaminant total is not 0, and its
    fallout is 1 when the reference total is not 0. *)
Theorem cumulative_counts_decrease :
  forall (Threshold : list Z) (CONTAMc REFc : list N),
    let df := calculate_stats Threshold CONTAMc REFc in
    (forall i x y, df_TP df !! i = Some x -> df_TP df !! S i = Some y -> (y <= x)%N)
    /\ (forall i x y, df_FP df !! i = Some x -> df_FP df !! S i = Some y -> (y <= x)%N)
    /\ (forall x, df_TP df !! 0%nat = Some x -> x = Nsum CONTAMc)
    /\ (forall x, df_FP df !! 0%nat = Some x -> x = Nsum REFc)
    /\ (forall s, Nsum CONTAMc <> 0%N ->
                  df_Sensitivity df !! 0%nat = Some s -> s = Fin 1%Qc)
    /\ (forall f, Nsum REFc <> 0%N ->
                  df_Fallout df !! 0%nat = Some f -> f = Fin 1%Qc).
Proof.
  intros Threshold CONTAMc REFc df. subst df. unfold calculate_stats.
  cbn [df_TP df_FP df_Sensitivity df_Fallout]. rewrite !cumulate_suffix_sums.
  split; [apply suffix_sums_step|]. split; [apply suffix_sums_step|].
  split; [apply suffix_sums_head|]. split; [apply suffix_sums_head|].
  split.
  - intros s Hne Hs. rewrite list_lookup_fmap in Hs.
    destruct (suffix_sums CONTAMc !! 0%nat) as [x|] eqn:Hx; [|discriminate].
    apply suffix_sums_head in Hx. subst x. injection Hs as <-.
    apply (sens_total _ Hne).
  - intros f Hne Hf. rewrite list_lookup_fmap in Hf.
    destruct (suffix_sums REFc !! 0%nat) as [x|] eqn:Hx; [|discriminate].
    apply suffix_sums_head in Hx. subst x. injection Hf as <-.
    apply (sens_total _ Hne).
Qed.

Lemma cumulative_counts_decrease_witness :
  df_TP (frame_of ex_counts) !! 0%nat = Some (Nsum (contam_col ex_counts))
  /\ df_Sensitivity (frame_of ex_counts) !! 0%nat = Some (Fin 1%Qc).
Proof.
  destruct (cumulative_counts_decrease (map round_g (sorted_keys ex_counts))
              (contam_col ex_counts) (ref_col ex_counts))
    as (_ & _ & Htp & _ & Hs & _).
  fold (frame_of ex_counts) in Htp, Hs. split.
  - destruct (df_TP (frame_of ex_counts) !! 0%nat) as [x|] eqn:E;
      [rewrite (Htp x eq_refl); reflexivity|].
    vm_compute in E. discriminate.
  - destruct (df_Sensitivity (frame_of ex_counts) !! 0%nat) as [s|] eqn:E;
      [rewrite (Hs s ltac:(vm_compute; discriminate) eq_refl); reflexivity|].
    vm_compute in E. discriminate.
Defined.

(** ** Average precision at the edges *)

(** X16: on a table without rows [calculate_average_precision] raises
    [KeyError] (there is no last valid index) and logs nothing. *)
Theorem average_precision_empty_table_raises
  (df : DataFrame) (logger : list info_record) :
  df_Threshold df = [] ->
  calculate_average_precision df logger = (Raise KeyError, logger).
Proof.
  intros E. unfold calculate_average_precision, last_valid_index, valid_rows.
  rewrite E. cbn [fold_right map]. rewrite !zip_with_nil_r. reflexivity.
Qed.

Lemma average_precision_empty_table_raises_witness :
  calculate_average_precision empty_frame [] = (Raise KeyError, []).
Proof.
  apply (average_precision_empty_table_raises empty_frame []). reflexivity.
Defined.

Lemma Nsum_zeros l : Forall (eq 0%N) l -> Nsum l = 0%N.
Proof.
  induction 1 as [|x l <- _ IH]; [reflexivity|]. rewrite Nsum_cons, IH. reflexivity.
Qed.

Lemma rows_nonempty (counts : gmap Z counts_rec) :
  counts <> ∅ -> zip (rev (contam_col counts)) (rev (ref_col counts)) <> [].
Proof.
  intros Hne E. apply (sorted_keys_nonempty counts Hne).
  apply (f_equal length) in E.
  rewrite length_zip_with, !length_rev in E. unfold contam_col, ref_col in E.
  rewrite !length_map in E. destruct (sorted_keys counts); [reflexivity|].
  simpl in E. lia.
Qed.

(** X17: when no threshold of a non-empty mapping, with thresholds and
    counts below [2^53] in absolute value, has a contaminant read, every
    sensitivity is 0/0 and the average precision is not-a-number. *)
Theorem average_precision_no_contaminant (counts : gmap Z counts_rec) :
  counts <> ∅ -> representable counts ->
  (forall t c, counts !! t = Some c -> CONTAM c = 0%N) ->
  average_precision_of counts = Ok NaN.
Proof.
  intros Hne Hrep Hzero. rewrite (average_precision_of_terms counts Hne Hrep).
  assert (Hall : Forall (eq 0%N) (contam_col counts)).
  { unfold contam_col. apply Forall_forall. intros x Hx.
    apply list_elem_of_In, in_map_iff in Hx as (t & <- & Ht).
    apply list_elem_of_In, sorted_keys_elem in Ht as [c Hc].
    unfold counts_at. rewrite Hc, (Hzero t c Hc). reflexivity. }
  rewrite (Nsum_zeros _ Hall). f_equal.
  apply ap_terms_total_0; [apply rows_nonempty, Hne|].
  apply Forall_zip_fst, Forall_rev, Hall.
Qed.

Lemma average_precision_no_contaminant_witness :
  average_precision_of (<[3 := mkCounts 7 0]> ∅) = Ok NaN.
Proof.
  apply (average_precision_no_contaminant (<[3 := mkCounts 7 0]> ∅)).
  - apply insert_non_empty.
  - solve_representable.
  - intros t c Hc. apply lookup_insert_Some in Hc as [[_ <-]|[_ Hc]]; [reflexivity|].
    rewrite lookup_empty in Hc. discriminate.
Defined.

(** ** Average precision lies between 0 and 1 *)

Ltac qc_to_q :=
  unfold Qcle, Qclt, Qcplus, Qcmult, Qcopp, Qcminus in *; cbn [this Q2Qc] in *;
  rewrite ?Qred_correct in *;
  change (this 0%Qc) with 0%Q in *; change (this 1%Qc) with 1%Q in *.

Lemma Qc_unit_product (p d : Qc) :
  (0 <= p -> p <= 1 -> 0 <= d -> 0 <= p * d /\ p * d <= d)%Qc.
Proof. intros H0 H1 Hd. qc_to_q. split; nra. Qed.

Lemma Qc_unit_quotient (a b : Qc) :
  (0 <= a -> a <= b -> 0 < b -> 0 <= a / b /\ a / b <= 1)%Qc.
Proof.
  intros Ha Hab Hb.
  assert (Hne : b <> 0%Qc) by (intros ->; apply (Qclt_not_eq _ _ Hb); reflexivity).
  split; apply (Qcmult_lt_0_le_reg_r _ _ b Hb).
  - replace (0 * b)%Qc with 0%Qc by ring.
    replace (a / b * b)%Qc with a by (field; exact Hne). exact Ha.
  - replace (1 * b)%Qc with b by ring.
    replace (a / b * b)%Qc with a by (field; exact Hne). exact Hab.
Qed.

Lemma Qc_of_N_add a b : Qc_of_N (a + b) = (Qc_of_N a + Qc_of_N b)%Qc.
Proof.
  apply Qc_is_canon. unfold Qc_of_N, Qcplus. cbn [this Q2Qc].
  rewrite !Qred_correct, N2Z.inj_add, inject_Z_plus. reflexivity.
Qed.

Lemma Qc_of_N_le a b : (a <= b)%N -> (Qc_of_N a <= Qc_of_N b)%Qc.
Proof.
  intros H. unfold Qcle, Qc_of_N. cbn [this Q2Qc]. rewrite !Qred_correct.
  rewrite <- Zle_Qle. lia.
Qed.

Lemma Qc_of_N_nonneg a : (0 <= Qc_of_N a)%Qc.
Proof. apply (Qc_of_N_le 0 a). lia. Qed.

Lemma Qc_of_N_pos a : (a <> 0)%N -> (0 < Qc_of_N a)%Qc.
Proof.
  intros H. destruct (Qcle_lt_or_eq _ _ (Qc_of_N_nonneg a)) as [Hlt|Heq];
    [exact Hlt|]. exfalso. apply (Qc_of_N_nonzero a H). symmetry. exact Heq.
Qed.

(** A precision, with not-a-number read as 0, is a number from 0 to 1. *)
Lemma prec_unit tp fp :
  exists p, nan_to_num (prec tp fp) = Fin p /\ (0 <= p)%Qc /\ (p <= 1)%Qc.
Proof.
  unfold prec, of_N, of_Z, fdiv. rewrite !Qc_sgn_of_Z.
  destruct (Z.eqb_spec (Z.sgn (Z.of_N (tp + fp))) 0) as [E|E].
  - assert (tp = 0%N) by lia. subst tp. exists 0%Qc. simpl.
    split; [reflexivity|]. split; [apply Qcle_refl|]. qc_to_q. lra.
  - fold (Qc_of_N tp). fold (Qc_of_N (tp + fp)). eexists. split; [reflexivity|].
    apply Qc_unit_quotient.
    + apply Qc_of_N_nonneg.
    + apply Qc_of_N_le. lia.
    + apply Qc_of_N_pos. lia.
Qed.

Lemma sens_step total tc c :
  (total <> 0)%N ->
  fsub (sens total (tc + c)) (sens total tc)
  = Fin (Qc_of_N c / Qc_of_N total)%Qc.
Proof.
  intros H. rewrite !(sens_frac _ _ H). unfold fsub, fneg, fadd. f_equal.
  rewrite Qc_of_N_add. field. apply Qc_of_N_nonzero, H.
Qed.

Lemma ap_fold_bounds total (rows : list (N * N)) : forall tc tr acc,
  (total <> 0)%N ->
  exists q,
    fold_left fadd (ap_terms total (sens total tc) tc tr rows) (Fin acc) = Fin q
    /\ (acc <= q)%Qc
    /\ (q <= acc + Qc_of_N (Nsum (map fst rows)) / Qc_of_N total)%Qc.
Proof.
  induction rows as [|[c r] rows IH]; intros tc tr acc Htotal.
  - exists acc. split; [reflexivity|]. split; [apply Qcle_refl|].
    replace (Qc_of_N (Nsum (map fst [])) / Qc_of_N total)%Qc with 0%Qc.
    + replace (acc + 0)%Qc with acc by ring. apply Qcle_refl.
    + change (Qc_of_N (Nsum (map fst []))) with 0%Qc. unfold Qcdiv. ring.
  - cbn [ap_terms fold_left map fst]. rewrite (sens_step _ _ _ Htotal).
    destruct (prec_unit (tc + c) (tr + r)) as (p & -> & Hp0 & Hp1).
    cbn [fmul fadd].
    destruct (IH (tc + c)%N (tr + r)%N
                 (acc + p * (Qc_of_N c / Qc_of_N total))%Qc Htotal)
      as (q & Hq & Hlo & Hhi).
    exists q. split; [exact Hq|].
    assert (Hd : (0 <= Qc_of_N c / Qc_of_N total)%Qc).
    { apply (Qcmult_lt_0_le_reg_r _ _ (Qc_of_N total) (Qc_of_N_pos _ Htotal)).
      replace (0 * Qc_of_N total)%Qc with 0%Qc by ring.
      replace (Qc_of_N c / Qc_of_N total * Qc_of_N total)%Qc with (Qc_of_N c)
        by (field; apply Qc_of_N_nonzero, Htotal).
      apply Qc_of_N_nonneg. }
    destruct (Qc_unit_product p _ Hp0 Hp1 Hd) as [Hpd0 Hpd1].
    rewrite Nsum_cons, Qc_of_N_add.
    replace ((Qc_of_N c + Qc_of_N (Nsum (map fst rows))) / Qc_of_N total)%Qc
      with (Qc_of_N c / Qc_of_N total
            + Qc_of_N (Nsum (map fst rows)) / Qc_of_N total)%Qc
      by (field; apply Qc_of_N_nonzero, Htotal).
    set (d := (Qc_of_N c / Qc_of_N total)%Qc) in *.
    set (D := (Qc_of_N (Nsum (map fst rows)) / Qc_of_N total)%Qc) in *.
    set (pd := (p * d)%Qc) in *.
    clearbody d D pd. clear - Hlo Hhi Hpd0 Hpd1.
    qc_to_q. split; lra.
Qed.

Lemma scale_fuel_bounds fuel n : forall u,
  (1 <= u)%N -> (u <= n)%N ->
  (1 <= scale_fuel fuel (10 ^ 3) n u <= n)%N.
Proof.
  induction fuel as [|fuel IH]; intros u H1 Hn; cbn [scale_fuel]; [lia|].
  change (10 ^ 3)%N with 1000%N in *.
  destruct (N.ltb_spec n (1000 * u)); [lia|]. apply IH; lia.
Qed.

(** A count that is not 0 is not printed as 0. *)
Lemma round_3g_positive c : (c <> 0)%N -> (round_3g c <> 0)%N.
Proof.
  intros Hc. unfold round_3g, round_sig.
  pose proof (scale_fuel_bounds (N.to_nat (N.size c)) c 1 ltac:(lia) ltac:(lia))
    as [Hu1 Hu2].
  set (u := scale_fuel _ _ _ _) in *. clearbody u. unfold round_half_even.
  assert (Hq : (1 <= c / u)%N) by (apply N.div_le_lower_bound; lia).
  destruct (2 * (c mod u) <? u)%N; [nia|].
  destruct (u <? 2 * (c mod u))%N; [nia|].
  destruct (N.even (c / u)); nia.
Qed.

Lemma Nsum_elem x l : x ∈ l -> (x <= Nsum l)%N.
Proof.
  induction 1 as [x l|x y l _ IH]; rewrite Nsum_cons; lia.
Qed.

(** X18: when the thresholds and counts of the mapping are below [2^53] in
    absolute value and some threshold has a contaminant read, the average
    precision of its table is a number from 0 to 1. *)
Theorem average_precision_unit_interval (counts : gmap Z counts_rec) :
  representable counts ->
  (exists t c, counts !! t = Some c /\ CONTAM c <> 0%N) ->
  exists p_a,
    average_precision_of counts = Ok p_a /\ in_unit_interval p_a.
Proof.
  intros Hrep (t & c & Hc & Hpos).
  assert (Hne : counts <> ∅).
  { intros ->. rewrite lookup_empty in Hc. discriminate. }
  rewrite (average_precision_of_terms counts Hne Hrep).
  assert (Htotal : Nsum (contam_col counts) <> 0%N).
  { assert (Hin : round_3g (CONTAM c) ∈ contam_col counts).
    { unfold contam_col. apply list_elem_of_In, in_map_iff.
      exists t. split; [unfold counts_at; rewrite Hc; reflexivity|].
      apply list_elem_of_In, sorted_keys_elem. eauto. }
    pose proof (Nsum_elem _ _ Hin). pose proof (round_3g_positive _ Hpos). lia. }
  rewrite <- (sens_0 _ Htotal). unfold fsum.
  destruct (ap_fold_bounds (Nsum (contam_col counts))
              (zip (rev (contam_col counts)) (rev (ref_col counts)))
              0%N 0%N 0%Qc Htotal) as (q & -> & Hlo & Hhi).
  exists (Fin q). split; [reflexivity|]. split; [exact Hlo|].
  rewrite fst_zip in Hhi
    by (rewrite !length_rev; unfold contam_col, ref_col; rewrite !length_map; lia).
  rewrite Nsum_rev in Hhi.
  replace (0 + Qc_of_N (Nsum (contam_col counts))
               / Qc_of_N (Nsum (contam_col counts)))%Qc with 1%Qc in Hhi
    by (field; apply Qc_of_N_nonzero, Htotal).
  exact Hhi.
Qed.

Lemma average_precision_unit_interval_witness :
  exists p_a,
    average_precision_of ex_counts = Ok p_a /\ in_unit_interval p_a.
Proof.
  apply (average_precision_unit_interval ex_counts).
  - unfold ex_counts. solve_representable.
  - exists 0, (mkCounts 10 5). split; [reflexivity|discriminate].
Defined.

(** * Properties of [contigs_from_fasta] and [report_precision_recall] *)

(** ** The first field of a line *)

Lemma lstrip_blanks ws s :
  forallb is_space ws = true ->
  match s with [] => True | c :: _ => is_space c = false end ->
  lstrip (ws ++ s) = s.
Proof.
  intros Hws Hs. induction ws as [|w ws IH]; simpl.
  - destruct s as [|c s]; [reflexivity|]. simpl. rewrite Hs. reflexivity.
  - simpl in Hws. apply andb_true_iff in Hws as [Hw Hws]. rewrite Hw. apply IH, Hws.
Qed.

(** The first field is the text between the leading blanks and the next
    blank. *)
Lemma first_field_name ws name sep rest :
  forallb is_space ws = true ->
  name <> [] -> forallb (fun c => negb (is_space c)) name = true ->
  is_space sep = true ->
  first_field (ws ++ name ++ sep :: rest) = Some name.
Proof.
  intros Hws Hne Hname Hsep. unfold first_field.
  rewrite lstrip_blanks; [|exact Hws|].
  - rewrite (span_run _ name sep rest Hname) by (rewrite Hsep; reflexivity).
    destruct name; [congruence|reflexivity].
  - destruct name as [|c name]; [congruence|]. simpl in *.
    apply andb_true_iff in Hname as [Hc _]. apply negb_true_iff, Hc.
Qed.

(** ** Reading the index *)

Lemma first_fields_cons line lines :
  first_fields (line :: lines)
  = match first_field line with
    | Some c => c :: first_fields lines
    | None => first_fields lines
    end.
Proof. reflexivity. Qed.

(** When the loop returns, and what. *)
Lemma read_contigs_returns fai lines : forall (acc S : gset str),
  read_contigs fai lines acc = Returns S <->
  Forall (fun line => is_Some (first_field line)) lines
  /\ NoDup (first_fields lines)
  /\ (forall c, c ∈ first_fields lines -> c ∉ acc)
  /\ S = list_to_set (first_fields lines) ∪ acc.
Proof.
  induction lines as [|line lines IH]; intros acc S.
  - cbn [read_contigs]. change (first_fields []) with (@nil str). split.
    + intros [= <-]. repeat split; [constructor|constructor| |].
      * intros c Hc. inversion Hc.
      * cbn [list_to_set]. rewrite (left_id_L ∅ (∪)). reflexivity.
    + intros (_ & _ & _ & ->). cbn [list_to_set].
      rewrite (left_id_L ∅ (∪)). reflexivity.
  - cbn [read_contigs]. rewrite first_fields_cons.
    destruct (first_field line) as [c|] eqn:Hf.
    + destruct (decide (c ∈ acc)) as [Hin|Hnotin].
      * split; [discriminate|]. intros (_ & _ & Hdisj & _).
        exfalso. apply (Hdisj c); [left|exact Hin].
      * rewrite IH. split.
        -- intros (Hall & Hnd & Hdisj & ->). repeat split.
           ++ constructor; [eauto|exact Hall].
           ++ constructor; [|exact Hnd]. intros Hc.
              apply (Hdisj c Hc). apply elem_of_union. left.
              apply elem_of_singleton. reflexivity.
           ++ intros c' Hc'. apply elem_of_cons in Hc' as [->|Hc']; [exact Hnotin|].
              intros Hacc. apply (Hdisj c' Hc'). apply elem_of_union. right. exact Hacc.
           ++ cbn [list_to_set].
              rewrite (comm_L (∪) {[c]} acc), (assoc_L (∪)).
              rewrite <- (assoc_L (∪) _ acc), (comm_L (∪) acc), (assoc_L (∪)).
              rewrite (comm_L (∪) (list_to_set _) {[c]}). reflexivity.
        -- intros (Hall & Hnd & Hdisj & ->). inversion Hall; subst.
           apply NoDup_cons in Hnd as [Hc Hnd]. repeat split; try assumption.
           ++ intros c' Hc' Hacc. apply elem_of_union in Hacc as [Hacc|Hacc].
              ** apply elem_of_singleton in Hacc. subst c'. exact (Hc Hc').
              ** apply (Hdisj c'); [right; exact Hc'|exact Hacc].
           ++ cbn [list_to_set].
              rewrite (comm_L (∪) {[c]} acc), (assoc_L (∪)).
              rewrite <- (assoc_L (∪) _ acc), (comm_L (∪) acc), (assoc_L (∪)).
              rewrite (comm_L (∪) (list_to_set _) {[c]}). reflexivity.
    + split; [discriminate|]. intros (Hall & _). inversion Hall as [|? ? [c Hc] _]; subst.
      congruence.
Qed.

(** X19: [contigs_from_fasta] returns a set exactly when the index file
    exists, every line of it has a first field, and no two lines have the
    same first field; the set is then the set of those first fields, one
    for each line. *)
Theorem contigs_from_fasta_returns :
  forall (fs : str -> option (list str)) (fasta : str) (contigs : gset str),
    contigs_from_fasta fs fasta = Returns contigs <->
    exists lines,
      fs (fasta ++ lit ".fai") = Some lines
      /\ Forall (fun line => is_Some (first_field line)) lines
      /\ NoDup (first_fields lines)
      /\ contigs = list_to_set (first_fields lines)
      /\ size contigs = length lines.
Proof.
  intros fs fasta contigs. unfold contigs_from_fasta. cbv zeta.
  destruct (fs (fasta ++ lit ".fai")) as [lines|].
  - rewrite read_contigs_returns. split.
    + intros (Hall & Hnd & _ & ->). exists lines. rewrite (right_id_L ∅ (∪)).
      repeat split; try assumption.
      rewrite size_list_to_set by exact Hnd. clear Hnd.
      induction Hall as [|line lines [c Hc] _ IH]; [reflexivity|].
      rewrite first_fields_cons, Hc. simpl. rewrite IH. reflexivity.
    + intros (lines' & [= <-] & Hall & Hnd & -> & _).
      repeat split; try assumption.
      * intros c _ Hc. exact (not_elem_of_empty c Hc).
      * rewrite (right_id_L ∅ (∪)). reflexivity.
  - split; [discriminate|]. intros (lines & Hfs & _). discriminate.
Qed.

Lemma first_fields_index_lines (entries : list (str * (ascii * str))) :
  Forall (fun e => contig_name (fst e) /\ is_space (fst (snd e)) = true) entries ->
  Forall (fun line => is_Some (first_field line)) (map index_line entries)
  /\ first_fields (map index_line entries) = map fst entries.
Proof.
  induction 1 as [|[name [sep rest]] entries [[Hne Hname] Hsep] _ [IH1 IH2]].
  - split; [constructor|reflexivity].
  - cbn [fst snd] in *.
    assert (E : first_field (index_line (name, (sep, rest))) = Some name).
    { apply (first_field_name [] name sep rest); auto. }
    cbn [map]. rewrite first_fields_cons, E, IH2. split; [|reflexivity].
    constructor; [rewrite E; eauto|exact IH1].
Qed.

(** X20: for an index whose lines each start with a contig name (text
    without blanks) followed by a blank and the other columns, the names
    all different, [contigs_from_fasta] returns the set of the names. *)
Theorem contigs_of_well_formed_index
  (fs : str -> option (list str)) (fasta : str)
  (entries : list (str * (ascii * str))) :
  fs (fasta ++ lit ".fai") = Some (map index_line entries) ->
  Forall (fun e => contig_name (fst e) /\ is_space (fst (snd e)) = true) entries ->
  NoDup (map fst entries) ->
  contigs_from_fasta fs fasta = Returns (list_to_set (map fst entries)).
Proof.
  intros Hfs Hentries Hnd. unfold contigs_from_fasta. cbv zeta. rewrite Hfs.
  destruct (first_fields_index_lines entries Hentries) as [Hall Hfields].
  apply read_contigs_returns. rewrite Hfields.
  repeat split; try assumption.
  - intros c _ Hc. exact (not_elem_of_empty c Hc).
  - rewrite (right_id_L ∅ (∪)). reflexivity.
Qed.

Lemma contigs_of_well_formed_index_witness :
  contigs_from_fasta ex_fs (lit "ref.fa")
  = Returns (list_to_set [lit "chr1"; lit "chr2"]).
Proof.
  apply (contigs_of_well_formed_index ex_fs (lit "ref.fa")
           [(lit "chr1", ("009"%char, lit "1000	6	60	61"));
            (lit "chr2", ("009"%char, lit "500	1030	60	61"))]).
  - reflexivity.
  - repeat constructor; discriminate.
  - repeat constructor; rewrite ?elem_of_cons; intros H;
      repeat (destruct H as [H|H]; [discriminate|]); inversion H.
Defined.

(** Lines that are in order are read into the set; the loop goes on with
    what follows them. *)
Lemma read_contigs_app fai l1 rest : forall acc : gset str,
  Forall (fun line => is_Some (first_field line)) l1 ->
  NoDup (first_fields l1) ->
  (forall c, c ∈ first_fields l1 -> c ∉ acc) ->
  exists acc',
    read_contigs fai (l1 ++ rest) acc = read_contigs fai rest acc'
    /\ (forall c, c ∈ acc' <-> c ∈ first_fields l1 \/ c ∈ acc).
Proof.
  induction l1 as [|line l1 IH]; intros acc Hall Hnd Hdisj.
  - exists acc. split; [reflexivity|]. intros c. split; [auto|].
    intros [H|H]; [inversion H|exact H].
  - inversion Hall as [|? ? [c Hc] Hall']; subst.
    rewrite first_fields_cons, Hc in Hnd, Hdisj.
    apply NoDup_cons in Hnd as [Hnotin Hnd].
    cbn [app read_contigs]. rewrite Hc.
    rewrite decide_False by (apply Hdisj; left).
    destruct (IH ({[c]} ∪ acc) Hall' Hnd) as (acc' & E & Hacc').
    { intros c' Hc' Hin. apply elem_of_union in Hin as [Hin|Hin].
      - apply elem_of_singleton in Hin. subst c'. exact (Hnotin Hc').
      - apply (Hdisj c'); [right; exact Hc'|exact Hin]. }
    exists acc'. split; [exact E|]. intros c'.
    rewrite Hacc', first_fields_cons, Hc, elem_of_union, elem_of_singleton, elem_of_cons.
    tauto.
Qed.

(** X21: how [contigs_from_fasta] fails. Without the index file it exits
    with the message that the index was not found. At the first line whose
    first field was already seen on an earlier line it exits with the
    message naming that contig. At the first line that is blank it raises
    [IndexError]. In each case the lines after that one are not read. *)
Theorem contigs_from_fasta_failures
  (fs : str -> option (list str)) (fasta : str) :
  (fs (fasta ++ lit ".fai") = None ->
   contigs_from_fasta fs fasta
   = SystemExit (IndexNotFound (fasta ++ lit ".fai")))
  /\ (forall l1 line l2 c,
        fs (fasta ++ lit ".fai") = Some (l1 ++ line :: l2) ->
        Forall (fun line => is_Some (first_field line)) l1 ->
        NoDup (first_fields l1) ->
        first_field line = Some c -> c ∈ first_fields l1 ->
        contigs_from_fasta fs fasta
        = SystemExit (ContigTwice (fasta ++ lit ".fai") c))
  /\ (forall l1 line l2,
        fs (fasta ++ lit ".fai") = Some (l1 ++ line :: l2) ->
        Forall (fun line => is_Some (first_field line)) l1 ->
        NoDup (first_fields l1) ->
        first_field line = None ->
        contigs_from_fasta fs fasta = IndexError).
Proof.
  unfold contigs_from_fasta. cbv zeta. split; [intros ->; reflexivity|]. split.
  - intros l1 line l2 c Hfs Hall Hnd Hc Hin. rewrite Hfs.
    destruct (read_contigs_app (fasta ++ lit ".fai") l1 (line :: l2) ∅ Hall Hnd)
      as (acc' & -> & Hacc').
    { intros c' _ H. exact (not_elem_of_empty c' H). }
    cbn [read_contigs]. rewrite Hc.
    rewrite decide_True by (apply Hacc'; left; exact Hin). reflexivity.
  - intros l1 line l2 Hfs Hall Hnd Hc. rewrite Hfs.
    destruct (read_contigs_app (fasta ++ lit ".fai") l1 (line :: l2) ∅ Hall Hnd)
      as (acc' & -> & _).
    { intros c' _ H. exact (not_elem_of_empty c' H). }
    cbn [read_contigs]. rewrite Hc. reflexivity.
Qed.

Lemma contigs_from_fasta_failures_witness :
  contigs_from_fasta ex_fs (lit "other.fa")
  = SystemExit (IndexNotFound (lit "other.fa" ++ lit ".fai"))
  /\ contigs_from_fasta
       (fun _ => Some ([lit "chr1 10"] ++ lit "chr1 20" :: [lit "chr3 5"]))
       (lit "ref.fa")
     = SystemExit (ContigTwice (lit "ref.fa" ++ lit ".fai") (lit "chr1"))
  /\ contigs_from_fasta
       (fun _ => Some ([lit "chr1 10"] ++ lit "  " :: [lit "chr1 5"]))
       (lit "ref.fa")
     = IndexError.
Proof.
  split; [|split].
  - apply (contigs_from_fasta_failures ex_fs (lit "other.fa")). reflexivity.
  - apply (proj1 (proj2 (contigs_from_fasta_failures _ (lit "ref.fa")))
             [lit "chr1 10"] (lit "chr1 20") [lit "chr3 5"] (lit "chr1")).
    + reflexivity.
    + repeat constructor. vm_compute. eauto.
    + repeat constructor. intros H. inversion H.
    + reflexivity.
    + left.
  - apply (proj2 (proj2 (contigs_from_fasta_failures _ (lit "ref.fa")))
             [lit "chr1 10"] (lit "  ") [lit "chr1 5"]).
    + reflexivity.
    + repeat constructor. vm_compute. eauto.
    + repeat constructor. intros H. inversion H.
    + reflexivity.
Defined.

(** ** The report *)

(** X22: after [write_table] on a non-empty mapping whose thresholds and
    counts are below [2^53] in absolute value, [report_precision_recall]
    appends to the log one line for each threshold of the mapping, in increasing order of
    the thresholds, each with the printed threshold, the precision and the
    sensitivity of its row; what was logged before stays in front. *)
Theorem report_one_line_per_threshold
  (counts : gmap Z counts_rec) (fh : file) (logger : list report_record) :
  counts <> ∅ -> closed fh = false -> representable counts ->
  exists df,
    fst (write_table counts fh) = Ok df
    /\ length (report_precision_recall df logger)
       = (length logger + size counts)%nat
    /\ take (length logger) (report_precision_recall df logger) = logger
    /\ (forall i t,
          sorted_keys counts !! i = Some t ->
          exists p s,
            df_Precision df !! i = Some p /\ df_Sensitivity df !! i = Some s /\
            report_precision_recall df logger !! (length logger + i)%nat
            = Some (AtThreshold (round_g t) p s)).
Proof.
  intros Hne Hopen Hrep. exists (frame_of counts).
  rewrite write_table_frame by assumption. split; [reflexivity|].
  pose proof (frame_rectangular counts) as (_ & _ & _ & _ & HS & _ & HP & _).
  rewrite frame_Threshold, length_map in HS, HP.
  unfold report_precision_recall. rewrite frame_Threshold.
  split; [|split].
  - rewrite length_app, !length_zip_with, length_map, HS, HP, length_sorted_keys. lia.
  - rewrite take_app_length. reflexivity.
  - intros i t Hi.
    assert (Hlt : (i < length (sorted_keys counts))%nat)
      by (eapply lookup_lt_Some; exact Hi).
    destruct (lookup_lt_is_Some_2 (df_Precision (frame_of counts)) i ltac:(lia))
      as [p Hp].
    destruct (lookup_lt_is_Some_2 (df_Sensitivity (frame_of counts)) i ltac:(lia))
      as [s Hs].
    exists p, s. split; [exact Hp|]. split; [exact Hs|].
    rewrite lookup_app_r by lia.
    replace (length logger + i - length logger)%nat with i by lia.
    rewrite lookup_zip_with, list_lookup_fmap, Hi. cbn [fmap option_fmap option_map mbind option_bind].
    rewrite lookup_zip_with, Hp. cbn [mbind option_bind]. rewrite Hs. reflexivity.
Qed.

Lemma report_one_line_per_threshold_witness :
  exists df,
    fst (write_table ex_counts fresh_file) = Ok df
    /\ length (report_precision_recall df []) = (length (@nil report_record) + size ex_counts)%nat.
Proof.
  destruct (report_one_line_per_threshold ex_counts fresh_file [])
    as (df & H1 & H2 & _).
  - apply insert_non_empty.
  - reflexivity.
  - unfold ex_counts. solve_representable.
  - exists df. split; assumption.
Defined.
